(** * Arena allocator: a shallow embedding of [arena.c] / [arena.h]

    The C program keeps a singly linked chain of heap-allocated
    [struct arena_block_t] records, each owning a byte buffer obtained from
    [malloc].  The embedding keeps that shape: a heap of objects indexed by
    abstract locations, an [arena_t] record with [head] and [tail] pointers
    into the heap, and the three functions of [arena.c] written as state
    transformers over that heap.  [size_t] is modelled as [Z] with the
    wrap-around of a 64-bit unsigned type written out. *)

From Stdlib Require Import ZArith Lia.
From stdpp Require Import base option list gmap fin_maps.

Local Open Scope Z_scope.

(** ** [size_t] arithmetic *)

Module SizeT.
(** Width of [size_t] (LP64). *)
Definition bits : Z := 64.
Definition modulus : Z := 2 ^ bits.
(** [SIZE_MAX]. *)
Definition max : Z := modulus - 1.

Definition wrap (x : Z) : Z := x mod modulus.
Definition add (x y : Z) : Z := wrap (x + y).
Definition sub (x y : Z) : Z := wrap (x - y).
Definition mul (x y : Z) : Z := wrap (x * y).
(** Bitwise complement [~x] and conjunction [x & y]. *)
Definition not (x : Z) : Z := wrap (Z.lnot x).
Definition and (x y : Z) : Z := Z.land x y.
(** Logical negation [!x]: the [int] 1 when [x] is zero, else 0. *)
Definition lnot (x : Z) : Z := if x =? 0 then 1 else 0.

(** The values a [size_t] variable can hold. *)
Definition in_range (x : Z) : Prop := 0 <= x < modulus.
(** Powers of two representable in [size_t]. *)
Definition is_pow2 (x : Z) : Prop := exists k : Z, 0 <= k < bits /\ x = 2 ^ k.
End SizeT.

(** ** Data model ([arena.h]) *)

(** Abstract addresses of [malloc]'ed chunks. *)
Abbreviation loc := positive.

(** A pointer into a chunk: the chunk plus a byte displacement. *)
Record pointer := { base : loc; disp : Z }.

Record arena_block_t := {
  data : loc;            (* uint8_t *data  *)
  capacity : Z;          (* size_t capacity *)
  offset : Z;            (* size_t offset  *)
  next : option loc      (* struct arena_block_t *next *)
}.

Record arena_t := {
  head : option loc;     (* struct arena_block_t *head *)
  tail : option loc      (* struct arena_block_t *tail *)
}.

(** What a live chunk holds: raw bytes of a given length (a fresh [malloc]
    result, or a block's backing buffer), or an initialised block record. *)
Inductive object :=
| Raw (len : Z)
| Block (b : arena_block_t).

Record state := { arena : arena_t; heap : gmap loc object }.

Definition set_offset (b : arena_block_t) (o : Z) : arena_block_t :=
  {| data := data b; capacity := capacity b; offset := o; next := next b |}.

Definition set_next (b : arena_block_t) (n : option loc) : arena_block_t :=
  {| data := data b; capacity := capacity b; offset := offset b; next := n |}.

(** [sizeof(struct arena_block_t)]: two pointers and two [size_t]. *)
Definition sizeof_arena_block_t : Z := 32.

(** ** The system allocator *)

(** Whether the two [malloc] calls of one [_arena_alloc] call succeed: the
    block-metadata one and the backing-buffer one. *)
Record oracle := { meta_ok : bool; data_ok : bool }.

Definition all_ok : oracle := {| meta_ok := true; data_ok := true |}.

(** [malloc(n)]: a failure, or a chunk at an address that is not live. *)
Definition malloc (ok : bool) (h : gmap loc object) (n : Z)
  : option loc * gmap loc object :=
  if ok then let l := fresh (dom h) in (Some l, <[l := Raw n]> h)
  else (None, h).

(** [free(p)] for a non-null [p]; freeing a chunk that is not live is
    undefined, rendered as [None]. *)
Definition free (h : gmap loc object) (l : loc) : option (gmap loc object) :=
  match h !! l with
  | Some _ => Some (delete l h)
  | None => None
  end.

(** ** [arena.c] *)

Definition empty_arena : arena_t := {| head := None; tail := None |}.

(** [arena_init]: [a->head = a->tail = NULL]. *)
Definition arena_init (s : state) : state :=
  {| arena := empty_arena; heap := heap s |}.

(** A state in which nothing has been allocated at all. *)
Definition start : state := {| arena := empty_arena; heap := ∅ |}.

(** [(b->offset + align - 1) & ~(align - 1)]. *)
Definition align_up (off align : Z) : Z :=
  SizeT.and (SizeT.sub (SizeT.add off align) 1) (SizeT.not (SizeT.sub align 1)).

(** The second disjunct of the [if] of line 20, as the compiler reads it:
    [(!offset) + size > b->capacity]. *)
Definition no_room (b : arena_block_t) (off size : Z) : bool :=
  SizeT.add (SizeT.lnot off) size >? capacity b.

(** The body of the [if]: create a block and serve the request from it.
    [b] is the previous tail, if any. *)
Definition grow (o : oracle) (s : state) (b : option (loc * arena_block_t))
    (size : Z) : option (option pointer * state) :=
  let new_capacity := if size >? 4096 then size else 4096 in
  match malloc (meta_ok o) (heap s) sizeof_arena_block_t with
  | (None, _) => Some (None, s)
  | (Some new_block, h1) =>
    match malloc (data_ok o) h1 new_capacity with
    | (None, _) =>
      h' ← free h1 new_block;
      Some (None, {| arena := arena s; heap := h' |})
    | (Some d, h2) =>
      let blk :=
        {| data := d; capacity := new_capacity; offset := 0; next := None |} in
      let h3 := <[new_block := Block blk]> h2 in
      let hd := match head (arena s) with
                | None => Some new_block
                | Some x => Some x
                end in
      let h4 := match b with
                | Some (t, tb) => <[t := Block (set_next tb (Some new_block))]> h3
                | None => h3
                end in
      let off := 0 in
      let ptr := {| base := d; disp := off |} in
      let h5 := <[new_block := Block (set_offset blk (SizeT.add off size))]> h4 in
      Some (Some ptr, {| arena := {| head := hd; tail := Some new_block |};
                         heap := h5 |})
    end
  end.

(** [_arena_alloc]: the outer [option] is [None] when the call reads through
    a dangling [tail].  The inner one tells which [return] is taken: [None]
    for the two [return NULL] of the growing path, [Some] for [return ptr],
    where [ptr = b->data + offset] is kept as the buffer and the displacement.
    Whether that sum is the null address is a matter of [c_pointer] below:
    [Some] does not mean non-null. *)
Definition _arena_alloc (o : oracle) (s : state) (size align : Z)
  : option (option pointer * state) :=
  match tail (arena s) with
  | None => grow o s None size
  | Some t =>
    match heap s !! t with
    | Some (Block b) =>
      let off := align_up (offset b) align in
      if no_room b off size then grow o s (Some (t, b)) size
      else
        let ptr := {| base := data b; disp := off |} in
        Some (Some ptr,
              {| arena := arena s;
                 heap := <[t := Block (set_offset b (SizeT.add off size))]> (heap s) |})
    | _ => None
    end
  end.

(** The [while] loop of [arena_deinit].  Every iteration frees two live
    chunks, so [size h] iterations always suffice. *)
Fixpoint free_blocks (fuel : nat) (h : gmap loc object) (b : option loc)
  : option (gmap loc object) :=
  match b with
  | None => Some h
  | Some l =>
    match fuel with
    | O => None
    | S fuel' =>
      match h !! l with
      | Some (Block blk) =>
        h1 ← free h (data blk);
        h2 ← free h1 l;
        free_blocks fuel' h2 (next blk)
      | _ => None
      end
    end
  end.

Definition arena_deinit (s : state) : option state :=
  h' ← free_blocks (size (heap s)) (heap s) (head (arena s));
  Some {| arena := empty_arena; heap := h' |}.

(** [arena_alloc_array(a, type, count)], with [sz = sizeof(type)] and
    [al = _Alignof(type)]. *)
Definition arena_alloc_array (o : oracle) (s : state) (sz al count : Z)
  : option (option pointer * state) :=
  _arena_alloc o s (SizeT.mul sz count) al.

(** [arena_alloc(a, type)]. *)
Definition arena_alloc (o : oracle) (s : state) (sz al : Z)
  : option (option pointer * state) :=
  _arena_alloc o s sz al.

(** ** Observations on a call *)

(** Whether a call on [s] enters the [if] of line 20 and so asks the system
    allocator for a new block. *)
Definition takes_grow_branch (s : state) (size align : Z) : bool :=
  match tail (arena s) with
  | None => true
  | Some t =>
    match heap s !! t with
    | Some (Block b) => no_room b (align_up (offset b) align) size
    | _ => false
    end
  end.

(** Whether one of the [malloc] calls made on the growing path fails. *)
Definition malloc_fails (o : oracle) : bool :=
  negb (meta_ok o) || negb (data_ok o).

(** The tail block of a state, when there is one. *)
Definition tail_block (s : state) : option arena_block_t :=
  t ← tail (arena s);
  match heap s !! t with
  | Some (Block b) => Some b
  | _ => None
  end.

(** Number of block records in the heap. *)
Definition is_block (o : object) : bool :=
  match o with Block _ => true | Raw _ => false end.

Definition block_count (s : state) : nat :=
  length (filter (fun kv => is_block kv.2 = true) (map_to_list (heap s))).

(** ** Sequences of calls *)

Record request := { rq_size : Z; rq_align : Z; rq_oracle : oracle }.

(** A served allocation: the buffer it lies in, its start offset and size. *)
Record served := { sv_base : loc; sv_start : Z; sv_size : Z }.

Definition record_served (r : request) (p : option pointer) : list served :=
  match p with
  | Some q => [ {| sv_base := base q; sv_start := disp q; sv_size := rq_size r |} ]
  | None => []
  end.

(** Run a sequence of [_arena_alloc] calls, logging the served ones in
    order. *)
Fixpoint run (s : state) (rs : list request) : option (list served * state) :=
  match rs with
  | [] => Some ([], s)
  | r :: rs' =>
    '(p, s1) ← _arena_alloc (rq_oracle r) s (rq_size r) (rq_align r);
    '(log, s2) ← run s1 rs';
    Some (record_served r p ++ log, s2)
  end.

(** [x] lies in the half-open byte range of [e]. *)
Definition in_served (e : served) (x : Z) : Prop :=
  sv_start e <= x < sv_start e + sv_size e.

Definition pairwise_disjoint (log : list served) : Prop :=
  forall (i j : nat) (e1 e2 : served),
    i ≠ j -> log !! i = Some e1 -> log !! j = Some e2 ->
    sv_base e1 = sv_base e2 ->
    forall x, ~ (in_served e1 x /\ in_served e2 x).

(** A call served from the existing tail computes [b->offset + align - 1]
    and [offset + size]; [no_wrap] says neither exceeds [SIZE_MAX]. *)
Definition no_wrap (s : state) (size align : Z) : bool :=
  match tail_block s with
  | Some b =>
    let off := align_up (offset b) align in
    if no_room b off size then true
    else (offset b + align - 1 <? SizeT.modulus) && (off + size <? SizeT.modulus)
  | None => true
  end.

Fixpoint run_no_wrap (s : state) (rs : list request) : bool :=
  match rs with
  | [] => true
  | r :: rs' =>
    no_wrap s (rq_size r) (rq_align r) &&
    match _arena_alloc (rq_oracle r) s (rq_size r) (rq_align r) with
    | Some (_, s1) => run_no_wrap s1 rs'
    | None => true
    end
  end.

Definition valid_request (r : request) : Prop :=
  SizeT.in_range (rq_size r) /\ SizeT.is_pow2 (rq_align r).

(** ** Reachable states *)

Inductive reachable : state -> Prop :=
| reach_start : reachable start
| reach_init s : reachable s -> reachable (arena_init s)
| reach_alloc s o size align r s' :
    reachable s -> SizeT.in_range size -> SizeT.is_pow2 align ->
    _arena_alloc o s size align = Some (r, s') -> reachable s'
| reach_deinit s s' :
    reachable s -> arena_deinit s = Some s' -> reachable s'.

(** ** The shape of a well-formed arena *)

(** [linked p ls q]: following [next] from [p] visits exactly the blocks of
    [ls] and ends on the pointer [q]. *)
Fixpoint linked (p : option loc) (ls : list (loc * arena_block_t))
    (q : option loc) : Prop :=
  match ls with
  | [] => p = q
  | lb :: r => p = Some lb.1 /\ linked (next lb.2) r q
  end.

Definition block_ok (h : gmap loc object) (lb : loc * arena_block_t) : Prop :=
  h !! lb.1 = Some (Block lb.2) /\
  h !! data lb.2 = Some (Raw (capacity lb.2)) /\
  4096 <= capacity lb.2 < SizeT.modulus /\
  0 <= offset lb.2 < SizeT.modulus.

Definition chain_of (s : state) (ls : list (loc * arena_block_t)) : Prop :=
  linked (head (arena s)) ls None /\
  tail (arena s) = fst <$> last ls /\
  Forall (block_ok (heap s)) ls /\
  NoDup (fst <$> ls) /\
  NoDup ((fun lb => data lb.2) <$> ls).

Definition wf (s : state) : Prop := exists ls, chain_of s ls.

(** ** The growth rule as the specification words it *)

(** "Round the Block's current offset up to the next multiple of align." *)
Definition spec_round_up (off align : Z) : Z := ((off + align - 1) / align) * align.

(** "If no Block exists yet, or the aligned candidate plus size would exceed
    the current Block's capacity, grow." *)
Definition spec_must_grow (s : state) (size align : Z) : bool :=
  match tail (arena s) with
  | None => true
  | Some _ =>
    match tail_block s with
    | Some b => spec_round_up (offset b) align + size >? capacity b
    | None => false
    end
  end.

(** "Invariant 0 ≤ offset ≤ capacity", for every block record in the heap. *)
Definition offsets_in_bounds (s : state) : Prop :=
  forall l b, heap s !! l = Some (Block b) -> 0 <= offset b <= capacity b.

(** ** Helpers for stating scenarios and invariants *)

(** The state after a call (the state itself when the call is undefined). *)
Definition alloc_state (o : oracle) (s : state) (size align : Z) : state :=
  match _arena_alloc o s size align with
  | Some (_, s') => s'
  | None => s
  end.

(** Every logged allocation lies in a buffer that is not live in [s] yet, or
    in the tail's buffer at or after the tail's current offset. *)
Definition log_above (s : state) (log : list served) : Prop :=
  forall e, e ∈ log -> is_Some (heap s !! sv_base e) ->
    exists b, tail_block s = Some b /\ data b = sv_base e /\ offset b <= sv_start e.

(** ** Ownership of the heap *)

(** Every live chunk is a block of the chain or the buffer of one: the heap
    holds exactly two chunks per block of the chain. *)
Definition tight (s : state) : Prop :=
  exists ls, chain_of s ls /\ size (heap s) = (2 * length ls)%nat.

(** The calls of the usage example in the header comment of [arena.h], with
    the sizes and alignments of an LP64 target: two [node_t], one [user_t],
    [arena_alloc_array(char, 4)] and [arena_alloc_array(int, 3)]. *)
Definition example_requests : list request :=
  [ {| rq_size := 16; rq_align := 8; rq_oracle := all_ok |};
    {| rq_size := 16; rq_align := 8; rq_oracle := all_ok |};
    {| rq_size := 24; rq_align := 8; rq_oracle := all_ok |};
    {| rq_size := SizeT.mul 1 4; rq_align := 1; rq_oracle := all_ok |};
    {| rq_size := SizeT.mul 4 3; rq_align := 4; rq_oracle := all_ok |} ].

(** The state a run ends in (the initial one when the run is undefined). *)
Definition run_state (s : state) (rs : list request) : state :=
  match run s rs with
  | Some (_, s') => s'
  | None => s
  end.

Definition run_log (s : state) (rs : list request) : list served :=
  match run s rs with
  | Some (log, _) => log
  | None => []
  end.

(** ** Pointers as addresses *)







(** * Proofs *)

(** ** [size_t] arithmetic and the rounding expression *)

Lemma modulus_eq : SizeT.modulus = 18446744073709551616.
Proof. reflexivity. Qed.

(** Closed goals [SizeT.in_range n] and [SizeT.is_pow2 (2 ^ k)]. *)
Ltac size_t_range := unfold SizeT.in_range; rewrite modulus_eq; lia.
Ltac pow2_exp k := exists k; split; [unfold SizeT.bits; lia | reflexivity].

Lemma wrap_range x : SizeT.in_range (SizeT.wrap x).
Proof.
  unfold SizeT.in_range, SizeT.wrap. rewrite modulus_eq.
  apply Z.mod_pos_bound. lia.
Qed.

Lemma wrap_small x : SizeT.in_range x -> SizeT.wrap x = x.
Proof. unfold SizeT.in_range, SizeT.wrap. intros H. by apply Z.mod_small. Qed.

Lemma pow2_bounds k : 0 <= k < SizeT.bits -> 1 <= 2 ^ k < SizeT.modulus.
Proof.
  intros Hk. unfold SizeT.modulus. split.
  - assert (0 < 2 ^ k) by (apply Z.pow_pos_nonneg; lia). lia.
  - apply Z.pow_lt_mono_r; lia.
Qed.

(** Masking with [~(2^k - 1)] clears the low [k] bits. *)
Lemma mask_low_bits x k :
  0 <= k < SizeT.bits -> SizeT.in_range x ->
  SizeT.and x (SizeT.not (SizeT.sub (2 ^ k) 1)) = (x / 2 ^ k) * 2 ^ k.
Proof.
  intros Hk Hx. pose proof (pow2_bounds k Hk) as Hp.
  unfold SizeT.and, SizeT.not, SizeT.sub.
  rewrite (wrap_small (2 ^ k - 1)) by (unfold SizeT.in_range; lia).
  replace (2 ^ k - 1) with (Z.ones k) by (rewrite Z.ones_equiv; lia).
  unfold SizeT.wrap, SizeT.modulus.
  rewrite <- (Z.land_ones _ SizeT.bits) by (unfold SizeT.bits; lia).
  rewrite (Z.land_comm (Z.lnot _)), Z.land_assoc.
  rewrite (Z.land_ones x) by (unfold SizeT.bits; lia).
  fold SizeT.modulus. rewrite (Z.mod_small x) by exact Hx.
  rewrite <- Z.ldiff_land, Z.ldiff_ones_r by lia.
  rewrite Z.shiftr_div_pow2, Z.shiftl_mul_pow2 by lia. reflexivity.
Qed.

Lemma align_up_pow2 off k :
  0 <= k < SizeT.bits ->
  align_up off (2 ^ k) = (SizeT.wrap (off + 2 ^ k - 1) / 2 ^ k) * 2 ^ k.
Proof.
  intros Hk. unfold align_up.
  assert (SizeT.sub (SizeT.add off (2 ^ k)) 1 = SizeT.wrap (off + 2 ^ k - 1)) as ->.
  { unfold SizeT.sub, SizeT.add, SizeT.wrap. by rewrite Zminus_mod_idemp_l. }
  apply mask_low_bits; [done | apply wrap_range].
Qed.



Lemma align_up_multiple off k :
  0 <= k < SizeT.bits -> align_up off (2 ^ k) mod 2 ^ k = 0.
Proof. intros Hk. rewrite align_up_pow2 by done. apply Z_mod_mult. Qed.

(** Without wrap-around the rounding moves the offset up, by less than the
    alignment. *)
Lemma align_up_bounds off k :
  0 <= k < SizeT.bits -> 0 <= off -> off + 2 ^ k - 1 < SizeT.modulus ->
  off <= align_up off (2 ^ k) < off + 2 ^ k.
Proof.
  intros Hk Hoff Hno. pose proof (pow2_bounds k Hk) as Hp.
  rewrite align_up_pow2 by done.
  rewrite wrap_small by (unfold SizeT.in_range; lia).
  pose proof (Z.div_mod (off + 2 ^ k - 1) (2 ^ k) ltac:(lia)) as Hdm.
  pose proof (Z.mod_pos_bound (off + 2 ^ k - 1) (2 ^ k) ltac:(lia)) as Hm.
  lia.
Qed.


Lemma align_up_one off : SizeT.in_range off -> align_up off 1 = off.
Proof.
  intros Hoff. change 1 with (2 ^ 0) at 1.
  rewrite align_up_pow2 by (unfold SizeT.bits; lia).
  change (2 ^ 0) with 1. rewrite Z.div_1_r, Z.mul_1_r.
  replace (off + 1 - 1) with off by lia. by apply wrap_small.
Qed.

(** ** The system allocator and [grow] *)

Lemma fresh_not_live (h : gmap loc object) : h !! fresh (dom h) = None.
Proof. apply not_elem_of_dom, is_fresh. Qed.

Lemma free_live (h : gmap loc object) l x :
  h !! l = Some x -> free h l = Some (delete l h).
Proof. unfold free. by intros ->. Qed.

(** A failed attempt hands the state back untouched: the metadata chunk of
    the attempt, if it was obtained, has been freed again. *)
Lemma grow_failure o s b size s' :
  grow o s b size = Some (None, s') -> s' = s /\ malloc_fails o = true.
Proof.
  unfold grow, malloc, malloc_fails.
  destruct (meta_ok o); simpl; [| by intros [= <-]].
  destruct (data_ok o); simpl; [done |].
  rewrite (free_live _ _ (Raw sizeof_arena_block_t)) by apply lookup_insert_eq.
  simpl. intros [= <-]. split; [| done].
  rewrite delete_insert_eq, delete_id by apply fresh_not_live. by destruct s.
Qed.

Lemma grow_total o s b size : exists r s', grow o s b size = Some (r, s').
Proof.
  unfold grow, malloc.
  destruct (meta_ok o); simpl; [| eauto].
  destruct (data_ok o); simpl; [eauto |].
  rewrite (free_live _ _ (Raw sizeof_arena_block_t)) by apply lookup_insert_eq.
  simpl. eauto.
Qed.

Lemma grow_null_iff o s b size r s' :
  grow o s b size = Some (r, s') -> r = None <-> malloc_fails o = true.
Proof.
  intros Hg. split.
  - intros ->. by apply grow_failure in Hg as [_ ?].
  - revert Hg. unfold grow, malloc, malloc_fails.
    destruct (meta_ok o); simpl; [| by intros [= <- _]].
    destruct (data_ok o); simpl; [done |].
    destruct (free _ _); simpl; [by intros [= <- _] | done].
Qed.

(** What a successful [grow] leaves behind, when the previous tail (if any)
    is a live chunk. *)
Lemma grow_success o s b size p s' :
  (forall t tb, b = Some (t, tb) -> is_Some (heap s !! t)) ->
  grow o s b size = Some (Some p, s') ->
  exists nb d,
    let cap := if size >? 4096 then size else 4096 in
    heap s !! nb = None /\ heap s !! d = None /\ nb ≠ d /\
    p = {| base := d; disp := 0 |} /\
    head (arena s') = match head (arena s) with
                      | None => Some nb
                      | Some x => Some x
                      end /\
    tail (arena s') = Some nb /\
    heap s' !! nb = Some (Block {| data := d; capacity := cap;
                                   offset := SizeT.add 0 size; next := None |}) /\
    heap s' !! d = Some (Raw cap) /\
    (forall t tb, b = Some (t, tb) ->
       heap s' !! t = Some (Block (set_next tb (Some nb)))) /\
    (forall l, l ≠ nb -> l ≠ d -> (forall tb, b ≠ Some (l, tb)) ->
       heap s' !! l = heap s !! l).
Proof.
  intros Hlive. unfold grow, malloc.
  destruct (meta_ok o); simpl; [| done].
  destruct (data_ok o); simpl; [| by destruct (free _ _)].
  set (nb := fresh (dom (heap s))).
  set (h1 := <[nb := Raw sizeof_arena_block_t]> (heap s)).
  set (d := fresh (dom h1)).
  intros [= <- <-]. exists nb, d. simpl.
  assert (heap s !! nb = None) as Hnb by apply fresh_not_live.
  assert (h1 !! d = None) as Hd1 by apply fresh_not_live.
  assert (nb ≠ d) as Hne.
  { intros Heq. rewrite <- Heq in Hd1. unfold h1 in Hd1.
    by rewrite lookup_insert_eq in Hd1. }
  assert (heap s !! d = None) as Hd.
  { unfold h1 in Hd1. by rewrite lookup_insert_ne in Hd1. }
  assert (forall t tb, b = Some (t, tb) -> t ≠ nb /\ t ≠ d) as Hfresh.
  { intros t tb Hb. destruct (Hlive t tb Hb) as [x Hx].
    split; intros ->; congruence. }
  repeat split; try done.
  - apply lookup_insert_eq.
  - rewrite lookup_insert_ne by congruence.
    destruct b as [[t tb] |].
    + destruct (Hfresh t tb eq_refl) as [Ht1 Ht2].
      rewrite lookup_insert_ne by congruence. rewrite lookup_insert_ne by congruence.
      apply lookup_insert_eq.
    + rewrite lookup_insert_ne by congruence. apply lookup_insert_eq.
  - intros t tb ->. destruct (Hfresh t tb eq_refl) as [Ht1 Ht2].
    rewrite lookup_insert_ne by congruence. apply lookup_insert_eq.
  - intros l Hl1 Hl2 Hb. rewrite lookup_insert_ne by congruence.
    destruct b as [[t tb] |].
    + assert (t ≠ l) by (intros ->; by eapply Hb).
      unfold h1. by rewrite !lookup_insert_ne by congruence.
    + unfold h1. by rewrite !lookup_insert_ne by congruence.
Qed.

(** ** The two paths of [_arena_alloc] *)

Lemma alloc_cases o s size align r s' :
  _arena_alloc o s size align = Some (r, s') ->
  (takes_grow_branch s size align = true /\
   exists prev,
     (forall t tb, prev = Some (t, tb) ->
        tail (arena s) = Some t /\ heap s !! t = Some (Block tb)) /\
     (prev = None -> tail (arena s) = None) /\
     grow o s prev size = Some (r, s')) \/
  (takes_grow_branch s size align = false /\
   exists t b,
     tail (arena s) = Some t /\ heap s !! t = Some (Block b) /\
     r = Some {| base := data b; disp := align_up (offset b) align |} /\
     s' = {| arena := arena s;
             heap := <[t := Block (set_offset b
                        (SizeT.add (align_up (offset b) align) size))]> (heap s) |}).
Proof.
  unfold _arena_alloc, takes_grow_branch.
  destruct (tail (arena s)) as [t |] eqn:Ht.
  - destruct (heap s !! t) as [[len | b] |] eqn:Hb; try done.
    destruct (no_room b _ size) eqn:Hroom.
    + intros Hg. left. split; [done |]. exists (Some (t, b)).
      split_and!; [by intros ? ? [= <- <-] | done | done].
    + intros [= <- <-]. right. split; [done |]. by exists t, b.
  - intros Hg. left. split; [done |]. exists None. by split_and!.
Qed.

(** On a state whose tail is live the call is defined. *)
Lemma alloc_defined o s size align :
  (forall t, tail (arena s) = Some t -> exists b, heap s !! t = Some (Block b)) ->
  exists r s', _arena_alloc o s size align = Some (r, s').
Proof.
  intros Hlive. unfold _arena_alloc.
  destruct (tail (arena s)) as [t |]; [| apply grow_total].
  destruct (Hlive t eq_refl) as [b ->].
  destruct (no_room _ _ _); [apply grow_total | eauto].
Qed.

(** ** Chains *)

Lemma linked_app p l1 l2 q :
  linked p (l1 ++ l2) q <-> exists m, linked p l1 m /\ linked m l2 q.
Proof.
  revert p. induction l1 as [| lb l1 IH]; intros p; simpl.
  - split; [intros H; by exists p | by intros (m & -> & H)].
  - rewrite IH. split.
    + intros (Hp & m & H1 & H2). by exists m.
    + intros (m & (Hp & H1) & H2). split; [done | by exists m].
Qed.

Lemma block_ok_frame (h h' : gmap loc object) lb :
  block_ok h lb ->
  h' !! lb.1 = h !! lb.1 -> h' !! data lb.2 = h !! data lb.2 ->
  block_ok h' lb.
Proof.
  intros (H1 & H2 & H3 & H4) E1 E2. unfold block_ok. by rewrite E1, E2.
Qed.

Lemma chain_empty s ls :
  chain_of s ls -> tail (arena s) = None -> ls = [] /\ head (arena s) = None.
Proof.
  intros (Hl & Ht & _) Hnone. rewrite Hnone in Ht.
  destruct (last ls) as [x |] eqn:Hlast; [done |].
  apply last_None in Hlast. subst ls. by split.
Qed.

Lemma chain_tail_split s ls t :
  chain_of s ls -> tail (arena s) = Some t ->
  exists ls0 b, ls = ls0 ++ [(t, b)] /\ heap s !! t = Some (Block b).
Proof.
  intros (Hl & Ht & Hok & _) Hsome. rewrite Hsome in Ht.
  destruct (last ls) as [[t' b] |] eqn:Hlast; [| done].
  simpl in Ht. simplify_eq.
  apply last_Some in Hlast as [ls0 ->]. exists ls0, b. split; [done |].
  apply Forall_app in Hok as [_ Hok]. rewrite Forall_singleton in Hok.
  by destruct Hok as [? _].
Qed.

Lemma wf_tail_block s t :
  wf s -> tail (arena s) = Some t ->
  exists b, heap s !! t = Some (Block b) /\ block_ok (heap s) (t, b).
Proof.
  intros [ls Hc] Ht. destruct (chain_tail_split s ls t Hc Ht) as (ls0 & b & -> & Hb).
  exists b. split; [done |]. destruct Hc as (_ & _ & Hok & _).
  apply Forall_app in Hok as [_ Hok]. by rewrite Forall_singleton in Hok.
Qed.

Lemma wf_alloc_defined o s size align :
  wf s -> exists r s', _arena_alloc o s size align = Some (r, s').
Proof.
  intros Hwf. apply alloc_defined. intros t Ht.
  destruct (wf_tail_block s t Hwf Ht) as (b & Hb & _). eauto.
Qed.

(** ** Preservation of the chain shape *)

Lemma chain_live_loc (h : gmap loc object) ls l :
  Forall (block_ok h) ls -> l ∈ fst <$> ls -> exists b, h !! l = Some (Block b).
Proof.
  intros Hok Hin. apply list_elem_of_fmap in Hin as (lb & -> & Hin).
  rewrite Forall_forall in Hok. destruct (Hok lb Hin) as [H _]. eauto.
Qed.

Lemma chain_live_data (h : gmap loc object) ls l :
  Forall (block_ok h) ls -> l ∈ (fun lb => data lb.2) <$> ls ->
  exists n, h !! l = Some (Raw n).
Proof.
  intros Hok Hin. apply list_elem_of_fmap in Hin as (lb & -> & Hin).
  rewrite Forall_forall in Hok. destruct (Hok lb Hin) as (_ & H & _). eauto.
Qed.

(** Serving a request from the tail only touches the tail's [offset]. *)
Lemma chain_serve s ls0 t b off' :
  chain_of s (ls0 ++ [(t, b)]) -> SizeT.in_range off' ->
  chain_of {| arena := arena s;
              heap := <[t := Block (set_offset b off')]> (heap s) |}
           (ls0 ++ [(t, set_offset b off')]).
Proof.
  intros (Hl & Ht & Hok & Hnd1 & Hnd2) Hr. unfold chain_of. simpl.
  apply Forall_app in Hok as [Hok0 Hokt]. rewrite Forall_singleton in Hokt.
  destruct Hokt as (Hb & Hd & Hcap & Hoff). simpl in Hb, Hd, Hcap, Hoff.
  assert (data b ≠ t) as Hdt by (intros Heq; congruence).
  split_and!.
  - apply linked_app in Hl as (m & H1 & H2). apply linked_app. by exists m.
  - by rewrite last_snoc in *.
  - apply Forall_app. split.
    + rewrite Forall_forall in Hok0 |- *. intros lb Hin.
      pose proof (Hok0 lb Hin) as Hlb.
      assert (lb.1 ≠ t) as Hlt.
      { intros Heq. rewrite fmap_app in Hnd1.
        apply NoDup_app in Hnd1 as (_ & Hdisj & _).
        apply (Hdisj lb.1); [by apply list_elem_of_fmap_2 |].
        rewrite Heq. simpl. apply list_elem_of_singleton. done. }
      apply (block_ok_frame (heap s)); [done | |].
      * apply lookup_insert_ne. congruence.
      * apply lookup_insert_ne. intros Heq.
        destruct Hlb as (_ & Hraw & _). congruence.
    + rewrite Forall_singleton. unfold block_ok. simpl.
      rewrite lookup_insert_eq, lookup_insert_ne by congruence. done.
  - by rewrite fmap_app in *.
  - by rewrite fmap_app in *.
Qed.

(** Growing appends the new block after the previous tail, if any. *)
Lemma chain_grow o s ls prev size p s' :
  chain_of s ls -> SizeT.in_range size ->
  (forall t tb, prev = Some (t, tb) ->
     tail (arena s) = Some t /\ heap s !! t = Some (Block tb)) ->
  (prev = None -> tail (arena s) = None) ->
  grow o s prev size = Some (Some p, s') ->
  exists ls' nb blk,
    chain_of s' (ls' ++ [(nb, blk)]) /\
    length ls' = length ls /\
    heap s !! data blk = None /\ base p = data blk /\ disp p = 0 /\
    offset blk = size /\ capacity blk = (if size >? 4096 then size else 4096).
Proof.
  intros Hc Hsz Hprev Hnone Hg.
  apply grow_success in Hg as (nb & d & Hg);
    [| intros t tb Hp; destruct (Hprev t tb Hp) as [_ ->]; by eexists].
  simpl in Hg.
  destruct Hg as (Hnb & Hd & Hne & -> & Hhd & Htl & Hnew & Hbuf & Hold & Hrest).
  assert (SizeT.add 0 size = size) as Hadd by (by apply wrap_small).
  rewrite Hadd in Hnew.
  set (cap := if size >? 4096 then size else 4096) in *.
  set (blk := {| data := d; capacity := cap; offset := size; next := None |}) in *.
  assert (4096 <= cap < SizeT.modulus) as Hcap.
  { unfold cap, SizeT.in_range in *. rewrite modulus_eq in *.
    destruct (Z.gtb_spec size 4096); lia. }
  assert (block_ok (heap s') (nb, blk)) as Hoknew.
  { unfold block_ok, SizeT.in_range in *. simpl. done. }
  destruct prev as [[t tb] |].
  - destruct (Hprev t tb eq_refl) as [Ht Htb].
    destruct (chain_tail_split s ls t Hc Ht) as (ls0 & b & -> & Hb).
    assert (b = tb) as -> by congruence.
    destruct Hc as (Hl & _ & Hok & Hnd1 & Hnd2).
    exists (ls0 ++ [(t, set_next tb (Some nb))]), nb, blk.
    split_and!; try done; [| by rewrite !length_app].
    pose proof Hok as Hok'.
    apply Forall_app in Hok as [Hok0 Hokt]. rewrite Forall_singleton in Hokt.
    destruct Hokt as (_ & Hraw & Hcapt & Hofft). simpl in Hraw, Hcapt, Hofft.
    assert (forall l, l ∈ fst <$> ls0 ++ [(t, tb)] -> l ≠ nb) as Hlocnb.
    { intros l Hin ->. destruct (chain_live_loc _ _ _ Hok' Hin). congruence. }
    assert (forall l, l ∈ (fun lb => data lb.2) <$> ls0 ++ [(t, tb)] -> l ≠ d) as Hdatd.
    { intros l Hin ->. destruct (chain_live_data _ _ _ Hok' Hin). congruence. }
    assert (data tb ≠ t) as Hdt by (intros Heq; congruence).
    assert (data tb ≠ nb) as Hdnb by (intros Heq; congruence).
    assert (data tb ≠ d) as Hdd by (intros Heq; congruence).
    assert (head (arena s') = head (arena s)) as Hsame.
    { destruct ls0; simpl in Hl; destruct Hl as [Hh _];
        rewrite Hh in Hhd; by rewrite Hhd, Hh. }
    unfold chain_of. split_and!.
    + apply linked_app in Hl as (m & H1 & H2 & H3). simpl in H3.
      rewrite <- app_assoc, Hsame. apply linked_app. exists m. split; [done |].
      simpl. done.
    + rewrite last_snoc. simpl. done.
    + rewrite <- app_assoc. apply Forall_app. split.
      * rewrite Forall_forall in Hok0 |- *. intros lb Hin.
        pose proof (Hok0 lb Hin) as Hlb.
        assert (lb.1 ∈ fst <$> ls0) as Hin1 by (by apply list_elem_of_fmap_2).
        assert (lb.1 ≠ t) as Hlt.
        { intros Heq. rewrite fmap_app in Hnd1.
          apply NoDup_app in Hnd1 as (_ & Hdisj & _).
          apply (Hdisj lb.1); [done |]. rewrite Heq. simpl.
          by apply list_elem_of_singleton. }
        apply (block_ok_frame (heap s)); [done | |].
        -- apply Hrest.
           ++ apply Hlocnb. rewrite fmap_app. apply elem_of_app. by left.
           ++ intros Heq. destruct Hlb as (Hblk & _). congruence.
           ++ intros tb' [= ? ?]. done.
        -- destruct Hlb as (Hblk & Hr & _). apply Hrest.
           ++ intros Heq. congruence.
           ++ intros Heq. congruence.
           ++ intros tb' [= Heq ?]. congruence.
      * apply Forall_cons. split; [| by apply Forall_singleton].
        unfold block_ok. simpl. rewrite (Hold t tb eq_refl).
        rewrite Hrest; [done | done | done |].
        intros tb' [= Heq ?]. congruence.
    + rewrite fmap_app. simpl. apply NoDup_app. split_and!.
      * replace (fst <$> ls0 ++ [(t, set_next tb (Some nb))])
          with (fst <$> ls0 ++ [(t, tb)]) by (by rewrite !fmap_app).
        done.
      * intros l Hin Hin'. apply list_elem_of_singleton in Hin'. subst l.
        apply (Hlocnb nb); [| done]. by rewrite !fmap_app in *.
      * apply NoDup_singleton.
    + rewrite fmap_app. simpl. apply NoDup_app. split_and!.
      * replace ((fun lb => data lb.2) <$> ls0 ++ [(t, set_next tb (Some nb))])
          with ((fun lb => data lb.2) <$> ls0 ++ [(t, tb)]) by (by rewrite !fmap_app).
        done.
      * intros l Hin Hin'. apply list_elem_of_singleton in Hin'. subst l.
        apply (Hdatd d); [| done]. by rewrite !fmap_app in *.
      * apply NoDup_singleton.
  - destruct (chain_empty s ls Hc (Hnone eq_refl)) as [-> Hhead].
    exists [], nb, blk. split_and!; try done.
    rewrite Hhead in Hhd. unfold chain_of. simpl. split_and!; try done.
    + by apply Forall_singleton.
    + apply NoDup_singleton.
    + apply NoDup_singleton.
Qed.

Lemma wf_start : wf start.
Proof.
  exists []. unfold chain_of. simpl. split_and!; try done; apply NoDup_nil_2.
Qed.

Lemma wf_init s : wf (arena_init s).
Proof.
  exists []. unfold chain_of. simpl. split_and!; try done; apply NoDup_nil_2.
Qed.

Lemma wf_alloc o s size align r s' :
  wf s -> SizeT.in_range size ->
  _arena_alloc o s size align = Some (r, s') -> wf s'.
Proof.
  intros [ls Hc] Hsz Ha.
  apply alloc_cases in Ha as [(_ & prev & Hprev & Hnone & Hg) | (_ & t & b & Ht & Hb & _ & ->)].
  - destruct r as [p |].
    + destruct (chain_grow o s ls prev size p s' Hc Hsz Hprev Hnone Hg)
        as (ls' & nb & blk & Hc' & _).
      by exists (ls' ++ [(nb, blk)]).
    + apply grow_failure in Hg as [-> _]. by exists ls.
  - destruct (chain_tail_split s ls t Hc Ht) as (ls0 & b' & -> & Hb').
    assert (b' = b) as -> by congruence.
    eexists. apply chain_serve; [done | apply wrap_range].
Qed.

(** ** [arena_deinit] *)

Lemma chain_length_le_size (h : gmap loc object) ls :
  Forall (block_ok h) ls -> NoDup (fst <$> ls) -> (length ls <= size h)%nat.
Proof.
  intros Hok Hnd.
  rewrite <- (length_fmap fst ls), <- (size_list_to_set (C := gset loc)) by done.
  rewrite <- (size_dom (D := gset loc) h). apply subseteq_size.
  intros l Hin. apply elem_of_list_to_set in Hin.
  destruct (chain_live_loc h ls l Hok Hin) as [b Hb].
  apply elem_of_dom. eauto.
Qed.

(** On a well-formed chain the loop frees every block and its buffer. *)
Lemma free_blocks_chain ls :
  forall (h : gmap loc object) p fuel,
    linked p ls None -> Forall (block_ok h) ls ->
    NoDup (fst <$> ls) -> NoDup ((fun lb => data lb.2) <$> ls) ->
    (length ls <= fuel)%nat ->
    exists h', free_blocks fuel h p = Some h'.
Proof.
  induction ls as [| lb r IH]; intros h p fuel Hl Hok Hnd1 Hnd2 Hfuel.
  - simpl in Hl. subst p. destruct fuel; simpl; eauto.
  - destruct Hl as [-> Hl]. destruct fuel as [| fuel]; [simpl in Hfuel; lia |].
    apply Forall_cons in Hok as [(Hb & Hd & _) Hok].
    rewrite fmap_cons in Hnd1, Hnd2.
    apply NoDup_cons in Hnd1 as [Hnot1 Hnd1]. apply NoDup_cons in Hnd2 as [Hnot2 Hnd2].
    simpl. rewrite Hb. rewrite (free_live _ _ _ Hd). simpl.
    assert (data lb.2 ≠ lb.1) as Hne by (intros Heq; congruence).
    rewrite (free_live _ _ (Block lb.2)) by (by rewrite lookup_delete_ne).
    simpl. apply IH; try done; [| simpl in Hfuel; lia].
    rewrite Forall_forall in Hok |- *. intros lb' Hin.
    pose proof (Hok lb' Hin) as Hlb'.
    apply (block_ok_frame h); [done | |].
    + destruct Hlb' as (Hb' & _). rewrite !lookup_delete_ne; [done | |].
      * intros Heq. congruence.
      * intros Heq. apply Hnot1. rewrite Heq. by apply list_elem_of_fmap_2.
    + destruct Hlb' as (_ & Hd' & _). rewrite !lookup_delete_ne; [done | |].
      * intros Heq. apply Hnot2. rewrite Heq.
        by apply (list_elem_of_fmap_2 (fun lb => data lb.2)).
      * intros Heq. congruence.
Qed.

Lemma wf_deinit_defined s : wf s -> exists s', arena_deinit s = Some s'.
Proof.
  intros (ls & Hl & _ & Hok & Hnd1 & Hnd2). unfold arena_deinit.
  destruct (free_blocks_chain ls (heap s) (head (arena s)) (size (heap s)))
    as [h' ->]; try done.
  - by apply chain_length_le_size.
  - simpl. eauto.
Qed.

Lemma deinit_arena s s' : arena_deinit s = Some s' -> arena s' = empty_arena.
Proof.
  unfold arena_deinit. destruct (free_blocks _ _ _); simpl; [| done].
  by intros [= <-].
Qed.

Lemma wf_deinit s s' : arena_deinit s = Some s' -> wf s'.
Proof.
  intros Hd. apply deinit_arena in Hd. exists []. unfold chain_of. rewrite Hd.
  simpl. split_and!; try done; apply NoDup_nil_2.
Qed.

Lemma reachable_wf s : reachable s -> wf s.
Proof.
  induction 1 as [| s _ _ | s o size align r s' _ IH Hsz _ Ha | s s' _ _ Hd].
  - apply wf_start.
  - apply wf_init.
  - by eapply wf_alloc.
  - by eapply wf_deinit.
Qed.

(** ** Liveness is monotone under [_arena_alloc] *)

Lemma grow_new_tail o s prev size p s' :
  (forall t tb, prev = Some (t, tb) ->
     tail (arena s) = Some t /\ heap s !! t = Some (Block tb)) ->
  grow o s prev size = Some (Some p, s') ->
  heap s !! base p = None /\ is_Some (heap s' !! base p) /\ disp p = 0 /\
  exists blk, tail_block s' = Some blk /\ data blk = base p /\
    offset blk = SizeT.add 0 size /\
    capacity blk = (if size >? 4096 then size else 4096) /\
    next blk = None.
Proof.
  intros Hprev Hg.
  apply grow_success in Hg as (nb & d & Hg);
    [| intros t tb Hp; destruct (Hprev t tb Hp) as [_ ->]; by eexists].
  simpl in Hg. destruct Hg as (_ & Hd & _ & -> & _ & Htl & Hnew & Hbuf & _).
  simpl. split_and!; try done. eexists. unfold tail_block.
  rewrite Htl. simpl. rewrite Hnew. by split_and!.
Qed.

Lemma grow_live_mono o s prev size r s' l :
  (forall t tb, prev = Some (t, tb) ->
     tail (arena s) = Some t /\ heap s !! t = Some (Block tb)) ->
  grow o s prev size = Some (r, s') ->
  is_Some (heap s !! l) -> is_Some (heap s' !! l).
Proof.
  intros Hprev Hg Hlive. destruct r as [p |].
  - apply grow_success in Hg as (nb & d & Hg);
      [| intros t tb Hp; destruct (Hprev t tb Hp) as [_ ->]; by eexists].
    simpl in Hg. destruct Hg as (Hnb & Hd & _ & _ & _ & _ & _ & _ & Hold & Hrest).
    destruct prev as [[t tb] |].
    + destruct (decide (l = t)) as [-> | Hlt].
      * rewrite (Hold t tb eq_refl). by eexists.
      * rewrite Hrest; [done | | |].
        -- intros ->. rewrite Hnb in Hlive. by destruct Hlive.
        -- intros ->. rewrite Hd in Hlive. by destruct Hlive.
        -- intros tb' [= ? ?]. done.
    + rewrite Hrest; [done | | | done].
      * intros ->. rewrite Hnb in Hlive. by destruct Hlive.
      * intros ->. rewrite Hd in Hlive. by destruct Hlive.
  - by apply grow_failure in Hg as [-> _].
Qed.

Lemma alloc_live_mono o s size align r s' l :
  _arena_alloc o s size align = Some (r, s') ->
  is_Some (heap s !! l) -> is_Some (heap s' !! l).
Proof.
  intros Ha Hlive.
  apply alloc_cases in Ha as [(_ & prev & Hprev & _ & Hg) | (_ & t & b & _ & _ & _ & ->)].
  - by eapply grow_live_mono.
  - simpl. destruct (decide (t = l)) as [-> | Hne].
    + rewrite lookup_insert_eq. by eexists.
    + by rewrite lookup_insert_ne.
Qed.

Lemma reachable_alloc_state o s size align :
  reachable s -> SizeT.in_range size -> SizeT.is_pow2 align ->
  reachable (alloc_state o s size align).
Proof.
  intros Hr Hsz Hal. unfold alloc_state.
  destruct (_arena_alloc o s size align) as [[r s'] |] eqn:Ha; [| done].
  by eapply reach_alloc.
Qed.

(** ** Allocations served from one block follow each other *)

Lemma pairwise_disjoint_cons e log :
  pairwise_disjoint log ->
  (forall e', e' ∈ log -> sv_base e = sv_base e' ->
     forall x, ~ (in_served e x /\ in_served e' x)) ->
  pairwise_disjoint (e :: log).
Proof.
  intros Hpd Hnew i j e1 e2 Hij H1 H2 Hb x [Hx1 Hx2].
  destruct i as [| i], j as [| j]; simpl in H1, H2.
  - done.
  - injection H1 as <-.
    apply (Hnew e2 (list_elem_of_lookup_2 _ _ _ H2) Hb x). by split.
  - injection H2 as <-.
    apply (Hnew e1 (list_elem_of_lookup_2 _ _ _ H1) (eq_sym Hb) x). by split.
  - apply (Hpd i j e1 e2 ltac:(congruence) H1 H2 Hb x). by split.
Qed.

Lemma no_wrap_served s t b size align :
  tail (arena s) = Some t -> heap s !! t = Some (Block b) ->
  no_room b (align_up (offset b) align) size = false ->
  no_wrap s size align = true ->
  offset b + align - 1 < SizeT.modulus /\
  align_up (offset b) align + size < SizeT.modulus.
Proof.
  intros Ht Hb Hroom. unfold no_wrap, tail_block. rewrite Ht. simpl.
  rewrite Hb, Hroom. intros [H1 H2]%andb_prop.
  by apply Z.ltb_lt in H1, H2.
Qed.

Lemma run_disjoint rs :
  forall s, wf s -> Forall valid_request rs -> run_no_wrap s rs = true ->
    exists log s',
      run s rs = Some (log, s') /\ pairwise_disjoint log /\ log_above s log.
Proof.
  induction rs as [| rq rs IH]; intros s Hwf Hv Hnw.
  - exists [], s. split_and!; [done | |].
    + intros i j e1 e2 _ H1. by rewrite lookup_nil in H1.
    + intros e Hin. by apply elem_of_nil in Hin.
  - apply Forall_cons in Hv as [[Hsz (k & Hk & Hal)] Hvs].
    simpl in Hnw. apply andb_prop in Hnw as [Hnw1 Hnw2].
    destruct (wf_alloc_defined (rq_oracle rq) s (rq_size rq) (rq_align rq) Hwf)
      as (r & s1 & Ha).
    rewrite Ha in Hnw2.
    pose proof (wf_alloc _ _ _ _ _ _ Hwf Hsz Ha) as Hwf1.
    destruct (IH s1 Hwf1 Hvs Hnw2) as (log & s2 & Hrun & Hpd & Habove).
    exists (record_served rq r ++ log), s2. simpl. rewrite Ha. simpl.
    rewrite Hrun. simpl. split; [done |].
    pose proof Ha as Hcase.
    apply alloc_cases in Hcase
      as [(_ & prev & Hprev & _ & Hg) | (Hb & t & b & Ht & Hblk & -> & Hs1)].
    + destruct r as [p |]; simpl.
      * apply grow_new_tail in Hg
          as (Hfresh & Hlive & Hz & blk & Htb & Hdat & Hoff & _); [| done].
        unfold SizeT.add in Hoff. rewrite Z.add_0_l, wrap_small in Hoff by done.
        split.
        -- apply pairwise_disjoint_cons; [done |].
           intros e' Hin Hbase x [[Hx1 Hx2] [Hx3 Hx4]]. simpl in Hbase, Hx1, Hx2.
           destruct (Habove e' Hin) as (b' & Htb' & _ & Hle);
             [by rewrite <- Hbase |].
           assert (b' = blk) as -> by congruence. lia.
        -- intros e Hin Hl. apply elem_of_cons in Hin as [-> | Hin].
           ++ simpl in Hl. rewrite Hfresh in Hl. by destruct Hl.
           ++ destruct (Habove e Hin (alloc_live_mono _ _ _ _ _ _ _ Ha Hl))
                as (b' & Htb' & Hdat' & _).
              assert (b' = blk) as -> by congruence.
              rewrite <- Hdat', Hdat, Hfresh in Hl. by destruct Hl.
      * apply grow_failure in Hg as [-> _]. done.
    + simpl. unfold takes_grow_branch in Hb. rewrite Ht, Hblk in Hb.
      destruct (no_wrap_served s t b _ _ Ht Hblk Hb Hnw1) as [Hw1 Hw2].
      destruct (wf_tail_block s t Hwf Ht) as (b' & Hb' & _ & Hraw & _ & Hoffb).
      assert (b' = b) as -> by congruence. simpl in Hraw, Hoffb.
      rewrite Hal in *.
      pose proof (align_up_bounds (offset b) k Hk ltac:(lia) Hw1) as Hup.
      set (off := align_up (offset b) (2 ^ k)) in *.
      assert (SizeT.add off (rq_size rq) = off + rq_size rq) as Hadd.
      { apply wrap_small. unfold SizeT.in_range in *. lia. }
      rewrite Hadd in Hs1.
      assert (tail_block s1 = Some (set_offset b (off + rq_size rq))) as Htb1.
      { unfold tail_block. rewrite Hs1. simpl. rewrite Ht. simpl.
        by rewrite lookup_insert_eq. }
      split.
      * apply pairwise_disjoint_cons; [done |].
        intros e' Hin Hbase x [[Hx1 Hx2] [Hx3 Hx4]]. simpl in Hbase, Hx1, Hx2.
        destruct (Habove e' Hin) as (b' & Htb' & _ & Hle).
        { rewrite <- Hbase. apply (alloc_live_mono _ _ _ _ _ _ _ Ha).
          by eexists. }
        assert (b' = set_offset b (off + rq_size rq)) as -> by congruence.
        simpl in Hle. lia.
      * intros e Hin Hl. apply elem_of_cons in Hin as [-> | Hin].
        -- exists b. unfold tail_block. rewrite Ht. simpl. rewrite Hblk.
           split_and!; [done | done | simpl; lia].
        -- destruct (Habove e Hin (alloc_live_mono _ _ _ _ _ _ _ Ha Hl))
             as (b' & Htb' & Hdat' & Hle).
           assert (b' = set_offset b (off + rq_size rq)) as -> by congruence.
           exists b. unfold tail_block. rewrite Ht. simpl. rewrite Hblk.
           simpl in Hdat', Hle. unfold SizeT.in_range in Hsz.
           split_and!; [done | done | lia].
Qed.


(** ** Concrete inputs *)

Lemma reachable_8_8 : reachable (alloc_state all_ok start 8 8).
Proof.
  apply reachable_alloc_state; [apply reach_start | size_t_range | pow2_exp 3].
Defined.

(** * The claims *)

(** C9. [arena_deinit] is defined on every reachable state and leaves [head]
    and [tail] both null, which is the arena [arena_init] produces; run again
    right away it walks an empty chain, frees nothing and returns the same
    state, so at the level of the state it is idempotent. *)
Theorem arena_deinit_idempotent s :
  reachable s ->
  exists s',
    arena_deinit s = Some s' /\
    head (arena s') = None /\ tail (arena s') = None /\
    arena s' = arena (arena_init s) /\
    arena_deinit s' = Some s'.
Proof.
  intros Hr. destruct (wf_deinit_defined s (reachable_wf s Hr)) as [s' Hd].
  exists s'. pose proof (deinit_arena s s' Hd) as Ha.
  split_and!; try done; try (by rewrite Ha).
  unfold arena_deinit. rewrite Ha. simpl.
  destruct (size (heap s')); simpl; destruct s'; simpl in *; by rewrite Ha.
Qed.

Lemma arena_deinit_idempotent_witness :
  reachable (alloc_state all_ok start 8 8) /\
  exists s',
    arena_deinit (alloc_state all_ok start 8 8) = Some s' /\
    head (arena s') = None /\ tail (arena s') = None /\
    arena s' = arena (arena_init (alloc_state all_ok start 8 8)) /\
    arena_deinit s' = Some s'.
Proof.
  split; [apply reachable_8_8 |].
  apply (arena_deinit_idempotent (alloc_state all_ok start 8 8)), reachable_8_8.
Defined.

(** Which [return] a call takes: on every reachable state the call is
    defined; it takes a [return NULL] exactly when it is on the growing path
    and one of the two [malloc] calls made there fails; and then the whole
    state, arena and heap, is what it was before the call: the metadata
    obtained for the failed attempt has been freed and no block has been
    linked in. *)
Theorem alloc_null_iff_malloc_fails o s size align :
  reachable s ->
  exists r s',
    _arena_alloc o s size align = Some (r, s') /\
    (r = None <->
       takes_grow_branch s size align = true /\ malloc_fails o = true) /\
    (r = None -> s' = s).
Proof.
  intros Hr.
  destruct (wf_alloc_defined o s size align (reachable_wf s Hr)) as (r & s' & Ha).
  exists r, s'. split; [done |].
  apply alloc_cases in Ha
    as [(Hb & prev & _ & _ & Hg) | (Hb & t & b & _ & _ & -> & ->)].
  - split.
    + rewrite (grow_null_iff _ _ _ _ _ _ Hg). by rewrite Hb; split; [| intros []].
    + intros ->. by apply grow_failure in Hg as [-> _].
  - split; [| done]. split; [done |]. rewrite Hb. by intros [].
Qed.

(** C6. With a power-of-two [align], the start offset of every pointer
    [_arena_alloc] returns is a multiple of [align] within the buffer of the
    block it is drawn from; when [align] is 1 there is no rounding: a pointer
    served from the existing tail starts at that block's current offset, and
    one served from a new block starts at the new block's offset 0. *)
Theorem alloc_pointer_aligned o s size align p s' :
  reachable s -> SizeT.is_pow2 align ->
  _arena_alloc o s size align = Some (Some p, s') ->
  disp p mod align = 0 /\
  (takes_grow_branch s size align = true -> disp p = 0) /\
  (takes_grow_branch s size align = false ->
     exists b, tail_block s = Some b /\ base p = data b /\
       disp p = align_up (offset b) align /\
       (align = 1 -> disp p = offset b)).
Proof.
  intros Hr (k & Hk & ->) Ha. pose proof (pow2_bounds k Hk) as Hp.
  pose proof (reachable_wf s Hr) as Hwf.
  apply alloc_cases in Ha
    as [(Hb & prev & Hprev & _ & Hg) | (Hb & t & b & Ht & Hblk & [= ->] & ->)].
  - apply grow_new_tail in Hg as (_ & _ & Hz & _); [| done].
    rewrite Hz, Hb. split_and!; [by apply Z.mod_0_l; lia | done | done].
  - rewrite Hb. simpl. split_and!; [by apply align_up_multiple | done |].
    intros _. exists b. unfold tail_block. rewrite Ht. simpl. rewrite Hblk.
    split_and!; try done. intros ->. apply align_up_one.
    destruct (wf_tail_block s t Hwf Ht) as (b' & Hb' & _ & _ & _ & Hoff).
    assert (b' = b) as -> by congruence. done.
Qed.

Lemma alloc_pointer_aligned_witness :
  let s0 := alloc_state all_ok start 3 1 in
  let p := {| base := 2; disp := 16 |} in
  reachable s0 /\ SizeT.is_pow2 16 /\
  _arena_alloc all_ok s0 40 16 = Some (Some p, alloc_state all_ok s0 40 16) /\
  disp p mod 16 = 0 /\
  (takes_grow_branch s0 40 16 = true -> disp p = 0) /\
  (takes_grow_branch s0 40 16 = false ->
     exists b, tail_block s0 = Some b /\ base p = data b /\
       disp p = align_up (offset b) 16 /\
       (16 = 1 -> disp p = offset b)).
Proof.
  intros s0 p.
  assert (reachable s0) as Hr.
  { apply reachable_alloc_state; [apply reach_start | size_t_range | pow2_exp 0]. }
  assert (SizeT.is_pow2 16) as Hp by pow2_exp 4.
  assert (_arena_alloc all_ok s0 40 16 = Some (Some p, alloc_state all_ok s0 40 16))
    as Ha by (vm_compute; reflexivity).
  split; [done |]. split; [done |]. split; [done |].
  exact (alloc_pointer_aligned all_ok s0 40 16 p _ Hr Hp Ha).
Defined.

(** C4 (amended). Run any sequence of [_arena_alloc] calls with [size_t]
    sizes and power-of-two alignments from a reachable state.  If in none of
    the calls served from the existing tail the sums [b->offset + align - 1]
    and [offset + size] exceed [SIZE_MAX], then every call returns and the
    byte ranges of any two allocations served from the same buffer are
    disjoint. *)
Theorem served_ranges_disjoint s rs :
  reachable s -> Forall valid_request rs -> run_no_wrap s rs = true ->
  exists log s', run s rs = Some (log, s') /\ pairwise_disjoint log.
Proof.
  intros Hr Hv Hnw.
  destruct (run_disjoint rs s (reachable_wf s Hr) Hv Hnw) as (log & s' & H1 & H2 & _).
  by exists log, s'.
Qed.

Lemma served_ranges_disjoint_witness :
  let rs := [ {| rq_size := 8; rq_align := 8; rq_oracle := all_ok |};
              {| rq_size := 3; rq_align := 1; rq_oracle := all_ok |};
              {| rq_size := 16; rq_align := 4; rq_oracle := all_ok |};
              {| rq_size := 5000; rq_align := 8;
                 rq_oracle := {| meta_ok := true; data_ok := false |} |};
              {| rq_size := 5000; rq_align := 8; rq_oracle := all_ok |};
              {| rq_size := 0; rq_align := 2; rq_oracle := all_ok |} ] in
  reachable start /\ Forall valid_request rs /\ run_no_wrap start rs = true /\
  exists log s', run start rs = Some (log, s') /\ pairwise_disjoint log.
Proof.
  intros rs.
  assert (Forall valid_request rs) as Hv.
  { unfold rs, valid_request.
    repeat (apply Forall_cons; split; [split; [simpl; size_t_range |] |]);
      [pow2_exp 3 | pow2_exp 0 | pow2_exp 2 | pow2_exp 3 | pow2_exp 3
      | pow2_exp 1 | apply Forall_nil_2]. }
  assert (run_no_wrap start rs = true) as Hnw by (vm_compute; reflexivity).
  split_and!; [apply reach_start | done | done |].
  exact (served_ranges_disjoint start rs reach_start Hv Hnw).
Defined.

(** C4 as stated fails, because no [size_t] sum in [_arena_alloc] is checked
    for overflow.

    First input: on a fresh region a [SIZE_MAX]-byte request whose [malloc]
    calls succeed gets a block of capacity [SIZE_MAX] and leaves its offset at
    [SIZE_MAX]; for the next request, of 1 byte aligned to 2, the rounding
    [b->offset + align - 1] wraps to 0, and the allocation starts at offset 0
    of the same buffer, inside the first one.

    Second input, with a single 4096-byte buffer: a zero-byte request creates
    the block and leaves its offset at 0; a [SIZE_MAX]-byte request is served
    from it at offset 0, because [!offset + size] wraps to 0; the offset is
    now [SIZE_MAX], the rounding wraps as before, and the third allocation
    starts at 0 again, inside the second one. *)
Lemma served_ranges_overlap :
  let rs1 := [ {| rq_size := SizeT.max; rq_align := 1; rq_oracle := all_ok |};
               {| rq_size := 1; rq_align := 2; rq_oracle := all_ok |} ] in
  let rs2 := [ {| rq_size := 0; rq_align := 1; rq_oracle := all_ok |};
               {| rq_size := SizeT.max; rq_align := 1; rq_oracle := all_ok |};
               {| rq_size := 1; rq_align := 2; rq_oracle := all_ok |} ] in
  (Forall valid_request rs1 /\
   exists log s', run start rs1 = Some (log, s') /\ ~ pairwise_disjoint log) /\
  (Forall valid_request rs2 /\
   exists log s', run start rs2 = Some (log, s') /\ ~ pairwise_disjoint log).
Proof.
  intros rs1 rs2.
  assert (SizeT.in_range SizeT.max) as Hmax by (vm_compute; by split).
  assert (SizeT.is_pow2 1) as Hp1 by pow2_exp 0.
  assert (SizeT.is_pow2 2) as Hp2 by pow2_exp 1.
  assert (SizeT.in_range 0) as H0 by size_t_range.
  assert (SizeT.in_range 1) as H1 by size_t_range.
  split; split.
  - unfold rs1, valid_request. repeat (apply Forall_cons; split; [by split |]).
    apply Forall_nil_2.
  - eexists _, _. split; [vm_compute; reflexivity |].
    intros Hpd.
    apply (Hpd 0%nat 1%nat _ _ ltac:(lia) eq_refl eq_refl eq_refl 0).
    unfold in_served. simpl. lia.
  - unfold rs2, valid_request. repeat (apply Forall_cons; split; [by split |]).
    apply Forall_nil_2.
  - eexists _, _. split; [vm_compute; reflexivity |].
    intros Hpd.
    apply (Hpd 1%nat 2%nat _ _ ltac:(lia) eq_refl eq_refl eq_refl 0).
    unfold in_served. simpl. lia.
Qed.


(** C10. [arena_alloc_array] passes [sizeof(type) * count] reduced modulo
    [2^64] to [_arena_alloc], with no check; for an 8-byte element type and
    [count = 2^61 + 1] the request is for 8 bytes, and the call returns a
    pointer into a 4096-byte block of which it uses 8 bytes, far fewer than
    the [count] elements asked for. *)
Theorem arena_alloc_array_wraps :
  (forall o s sz al count,
     arena_alloc_array o s sz al count =
       _arena_alloc o s ((sz * count) mod 2 ^ 64) al) /\
  exists sz al count,
    SizeT.in_range sz /\ SizeT.in_range count /\ SizeT.is_pow2 al /\
    SizeT.modulus < sz * count /\ SizeT.mul sz count = sz /\
    exists p s' b,
      arena_alloc_array all_ok start sz al count = Some (Some p, s') /\
      tail_block s' = Some b /\ data b = base p /\
      capacity b = 4096 /\ offset b = sz.
Proof.
  split; [done |].
  exists 8, 8, (2 ^ 61 + 1). split_and!.
  - by vm_compute.
  - by vm_compute.
  - pow2_exp 3.
  - by vm_compute.
  - by vm_compute.
  - eexists _, _, _. split_and!; (vm_compute; reflexivity).
Qed.

(** ** Where the code departs from the growth rule *)

(** The part of C7 that holds: a block created by [_arena_alloc] has capacity
    [max(size, 4096)] and the returned pointer is drawn from it. *)
Lemma grown_block_capacity o s size align p s' :
  reachable s -> takes_grow_branch s size align = true ->
  _arena_alloc o s size align = Some (Some p, s') ->
  exists blk, tail_block s' = Some blk /\ data blk = base p /\
    capacity blk = Z.max size 4096 /\ heap s !! base p = None.
Proof.
  intros Hr Hb Ha.
  apply alloc_cases in Ha as [(_ & prev & Hprev & _ & Hg) | (Hb' & _)];
    [| congruence].
  apply grow_new_tail in Hg as (Hfresh & _ & _ & blk & Htb & Hdat & _ & Hcap & _);
    [| done].
  exists blk. split_and!; try done. rewrite Hcap.
  destruct (Z.gtb_spec size 4096); lia.
Qed.

(** Requests above 4096 and below [SIZE_MAX] always land in a block at least
    as large as the request. *)
Lemma large_request_block_capacity o s size align p s' :
  reachable s -> 4096 < size < SizeT.max ->
  _arena_alloc o s size align = Some (Some p, s') ->
  exists blk, tail_block s' = Some blk /\ data blk = base p /\ size <= capacity blk.
Proof.
  intros Hr Hsz Ha.
  destruct (takes_grow_branch s size align) eqn:Hb.
  - destruct (grown_block_capacity o s size align p s' Hr Hb Ha)
      as (blk & Htb & Hdat & Hcap & _).
    exists blk. split_and!; [done | done | lia].
  - apply alloc_cases in Ha as [(Hb' & _) | (_ & t & b & Ht & Hblk & [= ->] & ->)];
      [congruence |].
    unfold takes_grow_branch in Hb. rewrite Ht, Hblk in Hb.
    exists (set_offset b (SizeT.add (align_up (offset b) align) size)).
    unfold tail_block. simpl. rewrite Ht. simpl. rewrite lookup_insert_eq.
    split_and!; [done | done |]. simpl.
    unfold no_room in Hb. rewrite Z.gtb_ltb in Hb. apply Z.ltb_ge in Hb.
    unfold SizeT.max in Hsz. rewrite modulus_eq in Hsz.
    unfold SizeT.add, SizeT.lnot in Hb.
    destruct (align_up (offset b) align =? 0);
      rewrite wrap_small in Hb by size_t_range; lia.
Qed.

(** C1 (the code at the failing input). After [_arena_alloc(a, 8, 8)] on a
    fresh region the tail block has capacity 4096 and offset 8.  For a
    request of 4096 bytes aligned to 8 the candidate offset 8 plus 4096
    exceeds the capacity, so the rule asks for a new block; the code does not
    take the growing path and serves the request from the tail at offset 8,
    leaving the arena with its single block. *)
Theorem full_tail_served_without_growing :
  let s1 := alloc_state all_ok start 8 8 in
  let s2 := alloc_state all_ok s1 4096 8 in
  exists b p,
    tail_block s1 = Some b /\ capacity b = 4096 /\ offset b = 8 /\
    spec_must_grow s1 4096 8 = true /\
    takes_grow_branch s1 4096 8 = false /\
    _arena_alloc all_ok s1 4096 8 = Some (Some p, s2) /\
    base p = data b /\ disp p = 8 /\
    arena s2 = arena s1 /\ block_count s2 = block_count s1.
Proof. eexists _, _. split_and!; (vm_compute; reflexivity). Qed.

(** C2 (the code at the failing input). The state reached by
    [_arena_alloc(a, 8, 8)] followed by [_arena_alloc(a, 4096, 8)] on a fresh
    region holds a block of capacity 4096 whose offset is 4104. *)
Theorem offset_exceeds_capacity :
  let s2 := alloc_state all_ok (alloc_state all_ok start 8 8) 4096 8 in
  reachable s2 /\
  (exists b, tail_block s2 = Some b /\ capacity b = 4096 /\ offset b = 4104) /\
  ~ offsets_in_bounds s2.
Proof.
  intros s2. split_and!.
  - apply reachable_alloc_state; [apply reachable_8_8 | size_t_range | pow2_exp 3].
  - eexists. split_and!; (vm_compute; reflexivity).
  - intros Hinv.
    assert (exists l b, heap s2 !! l = Some (Block b) /\ capacity b < offset b)
      as (l & b & Hb & Hlt)
      by (exists 1%positive; eexists; split; [by vm_compute | by vm_compute]).
    specialize (Hinv l b Hb). lia.
Qed.

(** C3 (the code at the failing input). On a fresh region
    [_arena_alloc(a, 5000, 8)] returns a pointer [A] at offset 0 of a new
    block of capacity 5000.  The following [_arena_alloc(a, 8, 8)] creates no
    second block: it returns a pointer into the same buffer as [A], at offset
    5000, which is the end of that buffer. *)
Theorem second_request_stays_in_full_block :
  let s1 := alloc_state all_ok start 5000 8 in
  let s2 := alloc_state all_ok s1 8 8 in
  exists A b B,
    _arena_alloc all_ok start 5000 8 = Some (Some A, s1) /\
    tail_block s1 = Some b /\ base A = data b /\ disp A = 0 /\
    capacity b = 5000 /\ offset b = 5000 /\
    spec_must_grow s1 8 8 = true /\
    _arena_alloc all_ok s1 8 8 = Some (Some B, s2) /\
    base B = base A /\ disp B = 5000 /\
    arena s2 = arena s1 /\ block_count s2 = 1%nat.
Proof. eexists _, _, _. split_and!; (vm_compute; reflexivity). Qed.

(** C7 (the code at the failing input). After a zero-byte request on a fresh
    region the tail is a 4096-byte block with offset 0.  A request of
    [SIZE_MAX] bytes then makes [!offset + size] wrap to 0, the growing path
    is not taken, and the returned pointer lies in the 4096-byte block. *)
Theorem max_request_served_from_small_block :
  let s1 := alloc_state all_ok start 0 1 in
  let s2 := alloc_state all_ok s1 SizeT.max 1 in
  exists p b,
    4096 < SizeT.max /\
    _arena_alloc all_ok s1 SizeT.max 1 = Some (Some p, s2) /\
    tail_block s2 = Some b /\ data b = base p /\
    capacity b = 4096 /\ capacity b < SizeT.max /\
    block_count s2 = 1%nat.
Proof.
  exists {| base := 2; disp := 0 |},
         {| data := 2; capacity := 4096; offset := SizeT.max; next := None |}.
  split_and!; (vm_compute; reflexivity).
Qed.

(** * Further properties of the code *)

(** ** What one call does to the chunks that are already live *)

Lemma alloc_raw_stable o s size align r s' l n :
  _arena_alloc o s size align = Some (r, s') ->
  heap s !! l = Some (Raw n) -> heap s' !! l = Some (Raw n).
Proof.
  intros Ha Hl.
  apply alloc_cases in Ha
    as [(_ & prev & Hprev & _ & Hg) | (_ & t & b & _ & Hb & _ & ->)].
  - destruct r as [p |]; [| by apply grow_failure in Hg as [-> _]].
    apply grow_success in Hg as (nb & d & Hg);
      [| intros t tb Hp; destruct (Hprev t tb Hp) as [_ ->]; by eexists].
    simpl in Hg. destruct Hg as (Hnb & Hd & _ & _ & _ & _ & _ & _ & _ & Hrest).
    rewrite Hrest; [done | congruence | congruence |].
    intros tb ->. destruct (Hprev l tb eq_refl) as [_ Hblk]. congruence.
  - simpl. rewrite lookup_insert_ne; [done | congruence].
Qed.

Lemma alloc_block_stable o s size align r s' l b :
  _arena_alloc o s size align = Some (r, s') ->
  heap s !! l = Some (Block b) ->
  exists b', heap s' !! l = Some (Block b') /\
    data b' = data b /\ capacity b' = capacity b /\
    (tail (arena s) ≠ Some l -> b' = b).
Proof.
  intros Ha Hl.
  apply alloc_cases in Ha
    as [(_ & prev & Hprev & Hnone & Hg) | (_ & t & tb & Ht & Hb & _ & ->)].
  - destruct r as [p |]; [| apply grow_failure in Hg as [-> _]; by exists b].
    apply grow_success in Hg as (nb & d & Hg);
      [| intros t tb Hp; destruct (Hprev t tb Hp) as [_ ->]; by eexists].
    simpl in Hg. destruct Hg as (Hnb & Hd & _ & _ & _ & _ & _ & _ & Hold & Hrest).
    destruct prev as [[t tb] |].
    + destruct (Hprev t tb eq_refl) as [Ht Htb].
      destruct (decide (l = t)) as [-> | Hne].
      * assert (tb = b) as -> by congruence.
        exists (set_next b (Some nb)). rewrite (Hold t b eq_refl).
        split_and!; try done; intros Hnt; congruence.
      * exists b. rewrite Hrest; [done | congruence | congruence |].
        intros tb' [= ? ?]. done.
    + exists b. rewrite Hrest; [done | congruence | congruence | done].
  - simpl. destruct (decide (l = t)) as [-> | Hne].
    + assert (tb = b) as -> by congruence. eexists. rewrite lookup_insert_eq.
      split_and!; try done; intros Hnt; congruence.
    + exists b. rewrite lookup_insert_ne by congruence. done.
Qed.

(** The tail stays, or moves to a chunk that was not live before. *)
Lemma alloc_tail_step o s size align r s' :
  _arena_alloc o s size align = Some (r, s') ->
  tail (arena s') = tail (arena s) \/
  exists nb, tail (arena s') = Some nb /\ heap s !! nb = None.
Proof.
  intros Ha.
  apply alloc_cases in Ha
    as [(_ & prev & Hprev & _ & Hg) | (_ & t & b & _ & _ & _ & ->)]; [| by left].
  destruct r as [p |]; [| apply grow_failure in Hg as [-> _]; by left].
  apply grow_success in Hg as (nb & d & Hg);
    [| intros t tb Hp; destruct (Hprev t tb Hp) as [_ ->]; by eexists].
  simpl in Hg. destruct Hg as (Hnb & _ & _ & _ & _ & Htl & _).
  right. by exists nb.
Qed.

Lemma alloc_head_stable o s size align r s' h :
  _arena_alloc o s size align = Some (r, s') ->
  head (arena s) = Some h -> head (arena s') = Some h.
Proof.
  intros Ha Hh.
  apply alloc_cases in Ha
    as [(_ & prev & Hprev & _ & Hg) | (_ & t & b & _ & _ & _ & ->)]; [| done].
  destruct r as [p |]; [| by apply grow_failure in Hg as [-> _]].
  apply grow_success in Hg as (nb & d & Hg);
    [| intros t tb Hp; destruct (Hprev t tb Hp) as [_ ->]; by eexists].
  simpl in Hg. destruct Hg as (_ & _ & _ & _ & Hhd & _).
  by rewrite Hhd, Hh.
Qed.

Lemma run_cons_inv s rq rs log s' :
  run s (rq :: rs) = Some (log, s') ->
  exists p s1 log1,
    _arena_alloc (rq_oracle rq) s (rq_size rq) (rq_align rq) = Some (p, s1) /\
    run s1 rs = Some (log1, s') /\ log = record_served rq p ++ log1.
Proof.
  simpl.
  destruct (_arena_alloc _ s _ _) as [[p s1] |]; simpl; [| done].
  destruct (run s1 rs) as [[log1 s2] |] eqn:Hr; simpl; [| done].
  intros [= <- <-]. by exists p, s1, log1.
Qed.

Lemma wf_run_defined rs :
  forall s, wf s -> Forall valid_request rs ->
    exists log s', run s rs = Some (log, s') /\ wf s'.
Proof.
  induction rs as [| rq rs IH]; intros s Hwf Hv.
  - by exists [], s.
  - apply Forall_cons in Hv as [[Hsz _] Hvs].
    destruct (wf_alloc_defined (rq_oracle rq) s (rq_size rq) (rq_align rq) Hwf)
      as (p & s1 & Ha).
    destruct (IH s1 (wf_alloc _ _ _ _ _ _ Hwf Hsz Ha) Hvs) as (log & s' & Hr & Hwf').
    exists (record_served rq p ++ log), s'. simpl. rewrite Ha. simpl.
    rewrite Hr. done.
Qed.

(** ** Heap accounting *)

Lemma size_delete_live (h : gmap loc object) l x :
  h !! l = Some x -> size h = S (size (delete l h)).
Proof.
  intros Hl. rewrite <- (insert_delete_id h l x Hl) at 1.
  apply map_size_insert_None, lookup_delete_eq.
Qed.

(** A successful [grow] makes exactly two chunks live: the block record and
    its buffer. *)
Lemma grow_heap_size o s prev n p s' :
  (forall t tb, prev = Some (t, tb) -> is_Some (heap s !! t)) ->
  grow o s prev n = Some (Some p, s') ->
  size (heap s') = S (S (size (heap s))).
Proof.
  intros Hlive. unfold grow, malloc.
  destruct (meta_ok o); simpl; [| done].
  destruct (data_ok o); simpl; [| by destruct (free _ _)].
  set (nb := fresh (dom (heap s))).
  set (h1 := <[nb := Raw sizeof_arena_block_t]> (heap s)).
  set (d := fresh (dom h1)).
  intros [= <- <-]. simpl.
  assert (heap s !! nb = None) as Hnb by apply fresh_not_live.
  assert (h1 !! d = None) as Hd1 by apply fresh_not_live.
  rewrite map_size_insert_Some.
  2:{ destruct prev as [[t tb] |]; rewrite !lookup_insert_is_Some'; auto. }
  assert (size (<[nb := Block {| data := d;
                                 capacity := if n >? 4096 then n else 4096;
                                 offset := 0; next := None |}]>
                  (<[d := Raw (if n >? 4096 then n else 4096)]> h1))
          = S (S (size (heap s)))) as Hsz.
  { rewrite map_size_insert_Some.
    - rewrite map_size_insert_None by done. unfold h1.
      by rewrite map_size_insert_None.
    - rewrite lookup_insert_is_Some'. right. unfold h1.
      rewrite lookup_insert_eq. by eexists. }
  destruct prev as [[t tb] |]; [| done].
  rewrite map_size_insert_Some; [done |].
  rewrite !lookup_insert_is_Some'. right. right. unfold h1.
  rewrite lookup_insert_is_Some'. right. by eapply Hlive.
Qed.

Lemma alloc_heap_size o s n align r s' :
  _arena_alloc o s n align = Some (r, s') ->
  size (heap s') =
    (size (heap s) +
     match r with
     | Some _ => if takes_grow_branch s n align then 2 else 0
     | None => 0
     end)%nat.
Proof.
  intros Ha.
  apply alloc_cases in Ha
    as [(Hb & prev & Hprev & _ & Hg) | (Hb & t & b & _ & Hblk & -> & ->)].
  - rewrite Hb. destruct r as [p |].
    + apply grow_heap_size in Hg; [lia |].
      intros t tb Hp. destruct (Hprev t tb Hp) as [_ ->]. by eexists.
    + apply grow_failure in Hg as [-> _]. lia.
  - rewrite Hb. simpl. rewrite map_size_insert_Some by (by eexists). lia.
Qed.

Lemma tight_alloc o s n align r s' :
  tight s -> SizeT.in_range n ->
  _arena_alloc o s n align = Some (r, s') -> tight s'.
Proof.
  intros (ls & Hc & Hsize) Hsz Ha.
  pose proof (alloc_heap_size _ _ _ _ _ _ Ha) as Hgrowth.
  apply alloc_cases in Ha
    as [(Hb & prev & Hprev & Hnone & Hg) | (Hb & t & b & Ht & Hblk & -> & ->)].
  - rewrite Hb in Hgrowth. destruct r as [p |].
    + destruct (chain_grow o s ls prev n p s' Hc Hsz Hprev Hnone Hg)
        as (ls' & nb & blk & Hc' & Hlen & _).
      exists (ls' ++ [(nb, blk)]). split; [done |].
      rewrite length_app. simpl. lia.
    + apply grow_failure in Hg as [-> _]. by exists ls.
  - rewrite Hb in Hgrowth. simpl in Hgrowth.
    destruct (chain_tail_split s ls t Hc Ht) as (ls0 & b' & -> & Hb').
    assert (b' = b) as -> by congruence.
    exists (ls0 ++ [(t, set_offset b (SizeT.add (align_up (offset b) align) n))]).
    split; [apply chain_serve; [done | apply wrap_range] |].
    simpl. rewrite Hgrowth, Hsize, !length_app. simpl. lia.
Qed.

Lemma tight_run rs :
  forall s log s', tight s -> Forall valid_request rs ->
    run s rs = Some (log, s') -> tight s'.
Proof.
  induction rs as [| rq rs IH]; intros s log s' Ht Hv Hr.
  - simpl in Hr. by injection Hr as _ <-.
  - apply Forall_cons in Hv as [[Hsz _] Hvs].
    apply run_cons_inv in Hr as (p & s1 & log1 & Ha & Hr & _).
    eapply IH; [| done | done]. by eapply tight_alloc.
Qed.

(** The loop of [arena_deinit] on a well-formed chain: it frees two chunks
    per block, nothing else, and no chunk of the chain survives. *)
Lemma free_blocks_chain_exact ls :
  forall (h : gmap loc object) p fuel,
    linked p ls None -> Forall (block_ok h) ls ->
    NoDup (fst <$> ls) -> NoDup ((fun lb => data lb.2) <$> ls) ->
    (length ls <= fuel)%nat ->
    exists h', free_blocks fuel h p = Some h' /\
      size h = (size h' + 2 * length ls)%nat /\ h' ⊆ h /\
      Forall (fun lb => h' !! lb.1 = None /\ h' !! data lb.2 = None) ls.
Proof.
  induction ls as [| lb r IH]; intros h p fuel Hl Hok Hnd1 Hnd2 Hfuel.
  - simpl in Hl. subst p. exists h. destruct fuel; simpl; split_and!; try done; lia.
  - destruct Hl as [-> Hl]. destruct fuel as [| fuel]; [simpl in Hfuel; lia |].
    apply Forall_cons in Hok as [(Hb & Hd & _) Hok].
    rewrite fmap_cons in Hnd1, Hnd2.
    apply NoDup_cons in Hnd1 as [Hnot1 Hnd1]. apply NoDup_cons in Hnd2 as [Hnot2 Hnd2].
    simpl. rewrite Hb. rewrite (free_live _ _ _ Hd). simpl.
    assert (data lb.2 ≠ lb.1) as Hne by (intros Heq; congruence).
    assert (delete (data lb.2) h !! lb.1 = Some (Block lb.2)) as Hb1
      by (by rewrite lookup_delete_ne).
    rewrite (free_live _ _ _ Hb1). simpl.
    set (h2 := delete lb.1 (delete (data lb.2) h)).
    destruct (IH h2 (next lb.2) fuel) as (h' & Hfree & Hsize & Hsub & Hgone);
      try done; [| simpl in Hfuel; lia |].
    { rewrite Forall_forall in Hok |- *. intros lb' Hin.
      pose proof (Hok lb' Hin) as Hlb'.
      apply (block_ok_frame h); [done | |]; unfold h2.
      - destruct Hlb' as (Hb' & _). rewrite !lookup_delete_ne; [done | |].
        + intros Heq. congruence.
        + intros Heq. apply Hnot1. rewrite Heq. by apply list_elem_of_fmap_2.
      - destruct Hlb' as (_ & Hd' & _). rewrite !lookup_delete_ne; [done | |].
        + intros Heq. apply Hnot2. rewrite Heq.
          by apply (list_elem_of_fmap_2 (fun lb => data lb.2)).
        + intros Heq. congruence. }
    assert (h2 ⊆ h) as Hsub2.
    { unfold h2. etrans; apply delete_subseteq. }
    exists h'. split_and!.
    + done.
    + rewrite (size_delete_live h _ _ Hd), (size_delete_live _ _ _ Hb1).
      fold h2. simpl. lia.
    + by etrans.
    + apply Forall_cons. split; [| done]. split.
      * eapply lookup_weaken_None; [| done]. apply lookup_delete_eq.
      * eapply lookup_weaken_None; [| done]. unfold h2.
        rewrite lookup_delete_ne by done. apply lookup_delete_eq.
Qed.

Lemma deinit_chain_exact s ls :
  chain_of s ls ->
  exists s', arena_deinit s = Some s' /\
    size (heap s) = (size (heap s') + 2 * length ls)%nat /\
    heap s' ⊆ heap s /\
    Forall (fun lb => heap s' !! lb.1 = None /\ heap s' !! data lb.2 = None) ls.
Proof.
  intros (Hl & _ & Hok & Hnd1 & Hnd2). unfold arena_deinit.
  destruct (free_blocks_chain_exact ls (heap s) (head (arena s)) (size (heap s)))
    as (h' & -> & Hrest); try done.
  - by apply chain_length_le_size.
  - simpl. eexists. split; [done |]. simpl. done.
Qed.

(** ** Where a returned pointer lies *)

(** After a call that returns a pointer, the tail is the block the pointer
    was drawn from, and its offset is the end of the allocation. *)
Lemma alloc_tail_after o s n align p s' :
  _arena_alloc o s n align = Some (Some p, s') ->
  exists b, tail_block s' = Some b /\ data b = base p /\
    offset b = SizeT.add (disp p) n.
Proof.
  intros Ha.
  apply alloc_cases in Ha
    as [(_ & prev & Hprev & _ & Hg) | (_ & t & b & Ht & Hblk & [= ->] & ->)].
  - apply grow_new_tail in Hg as (_ & _ & Hz & blk & Htb & Hdat & Hoff & _);
      [| done].
    exists blk. rewrite Hz. done.
  - eexists. unfold tail_block. simpl. rewrite Ht. simpl.
    rewrite lookup_insert_eq. done.
Qed.

(** The buffer a returned pointer points into is live after the call. *)
Lemma alloc_pointer_buffer o s n align p s' :
  wf s -> _arena_alloc o s n align = Some (Some p, s') ->
  exists len, heap s' !! base p = Some (Raw len) /\ 4096 <= len.
Proof.
  intros Hwf Ha.
  apply alloc_cases in Ha
    as [(_ & prev & Hprev & _ & Hg) | (_ & t & b & Ht & Hblk & [= ->] & ->)].
  - apply grow_success in Hg as (nb & d & Hg);
      [| intros t tb Hp; destruct (Hprev t tb Hp) as [_ ->]; by eexists].
    simpl in Hg. destruct Hg as (_ & _ & _ & -> & _ & _ & _ & Hbuf & _).
    eexists. split; [exact Hbuf |]. destruct (Z.gtb_spec n 4096); lia.
  - destruct (wf_tail_block s t Hwf Ht) as (b' & Hb' & _ & Hraw & Hcap & _).
    assert (b' = b) as -> by congruence. simpl in Hraw, Hcap.
    exists (capacity b). simpl. split; [| lia].
    rewrite lookup_insert_ne; [done | congruence].
Qed.

Lemma run_raw_stable rs :
  forall s log s' l len,
    run s rs = Some (log, s') ->
    heap s !! l = Some (Raw len) -> heap s' !! l = Some (Raw len).
Proof.
  induction rs as [| rq rs IH]; intros s log s' l len Hr Hl.
  - simpl in Hr. by injection Hr as _ <-.
  - apply run_cons_inv in Hr as (p & s1 & log1 & Ha & Hr & _).
    eapply IH; [done |]. by eapply alloc_raw_stable.
Qed.

(** The test of line 20 on [size_t] values. *)
Lemma no_room_iff b off n :
  SizeT.in_range n -> 0 <= capacity b ->
  no_room b off n = true <->
  (off = 0 /\ capacity b <= n < SizeT.max) \/ (off ≠ 0 /\ capacity b < n).
Proof.
  intros Hn Hcap. unfold no_room, SizeT.add, SizeT.lnot, SizeT.max.
  unfold SizeT.in_range in Hn. rewrite modulus_eq in *.
  rewrite Z.gtb_ltb, Z.ltb_lt.
  destruct (Z.eqb_spec off 0) as [-> | Hne].
  - destruct (Z.eq_dec n 18446744073709551615) as [-> | Hmax].
    + change (SizeT.wrap (1 + 18446744073709551615)) with 0. lia.
    + rewrite wrap_small by size_t_range. lia.
  - rewrite Z.add_0_l, wrap_small by size_t_range. lia.
Qed.

(** * Further theorems *)

(** X1. In every reachable state [head] and [tail] are null together, and a
    non-null [tail] points to a live block record that ends the chain (its
    [next] is null) and owns a live buffer of its recorded capacity, which is
    at least 4096. *)
Theorem reachable_chain_shape s :
  reachable s ->
  (head (arena s) = None <-> tail (arena s) = None) /\
  (forall t, tail (arena s) = Some t ->
     exists b, heap s !! t = Some (Block b) /\ next b = None /\
       heap s !! data b = Some (Raw (capacity b)) /\ 4096 <= capacity b).
Proof.
  intros Hr. destruct (reachable_wf s Hr) as [ls Hc]. split.
  - destruct (tail (arena s)) as [t |] eqn:Ht.
    + destruct (chain_tail_split s ls t Hc Ht) as (ls0 & b & -> & _).
      destruct Hc as (Hl & _). destruct ls0; simpl in Hl; destruct Hl as [-> _];
        by split.
    + by destruct (chain_empty s ls Hc Ht) as [_ ->].
  - intros t Ht. destruct (chain_tail_split s ls t Hc Ht) as (ls0 & b & -> & Hb).
    destruct Hc as (Hl & _ & Hok & _).
    apply linked_app in Hl as (m & _ & _ & Hnext). simpl in Hnext.
    apply Forall_app in Hok as [_ Hok]. rewrite Forall_singleton in Hok.
    destruct Hok as (_ & Hraw & Hcap & _). simpl in Hraw, Hcap.
    exists b. split_and!; try done. lia.
Qed.

Lemma reachable_chain_shape_witness :
  let s := alloc_state all_ok start 8 8 in
  reachable s /\
  (head (arena s) = None <-> tail (arena s) = None) /\
  (forall t, tail (arena s) = Some t ->
     exists b, heap s !! t = Some (Block b) /\ next b = None /\
       heap s !! data b = Some (Raw (capacity b)) /\ 4096 <= capacity b).
Proof.
  intros s. split; [apply reachable_8_8 |].
  exact (reachable_chain_shape s reachable_8_8).
Defined.

(** X2. Whatever sequence of [_arena_alloc] calls (with [size_t] sizes and
    power-of-two alignments, any of them possibly failing) is run on a fresh
    region in an empty heap, every call returns, [arena_deinit] is then
    defined and leaves the heap empty: each block record and each buffer the
    region obtained has been freed, and nothing obtained by a failed attempt
    is left behind. *)
Theorem run_then_deinit_frees_all rs :
  Forall valid_request rs ->
  exists log s s',
    run start rs = Some (log, s) /\ arena_deinit s = Some s' /\ heap s' = ∅.
Proof.
  intros Hv.
  destruct (wf_run_defined rs start wf_start Hv) as (log & s & Hr & _).
  assert (tight start) as Ht0.
  { exists []. split; [| done].
    unfold chain_of. simpl. split_and!; try done; apply NoDup_nil_2. }
  destruct (tight_run rs start log s Ht0 Hv Hr) as (ls & Hc & Hsize).
  destruct (deinit_chain_exact s ls Hc) as (s' & Hd & Hsize' & _).
  exists log, s, s'. split_and!; try done.
  apply map_size_empty_inv. lia.
Qed.

Lemma run_then_deinit_frees_all_witness :
  Forall valid_request example_requests /\
  exists log s s',
    run start example_requests = Some (log, s) /\
    arena_deinit s = Some s' /\ heap s' = ∅.
Proof.
  assert (Forall valid_request example_requests) as Hv.
  { unfold example_requests, valid_request.
    repeat (apply Forall_cons; split; [split; [vm_compute; by split |] |]);
      [pow2_exp 3 | pow2_exp 3 | pow2_exp 3 | pow2_exp 0 | pow2_exp 2
      | apply Forall_nil_2]. }
  split; [done |]. exact (run_then_deinit_frees_all example_requests Hv).
Defined.

(** X3. For every pointer returned in the course of a run of [_arena_alloc]
    calls from a reachable state, the buffer it was drawn from is still a
    live chunk, of at least 4096 bytes, when the run ends: no call frees or
    replaces a buffer an earlier call handed out.  This is about the buffer
    only; where in it, or past its end, the pointer lies is not stated. *)
Theorem run_served_buffers_stay_live rs :
  forall s log s',
    reachable s -> Forall valid_request rs -> run s rs = Some (log, s') ->
    forall e, e ∈ log ->
      exists len, heap s' !! sv_base e = Some (Raw len) /\ 4096 <= len.
Proof.
  intros s log s' Hr. apply reachable_wf in Hr. revert s log s' Hr.
  induction rs as [| rq rs IH]; intros s log s' Hwf Hv Hrun e Hin.
  - simpl in Hrun. injection Hrun as <- _. by apply elem_of_nil in Hin.
  - apply Forall_cons in Hv as [[Hsz _] Hvs].
    apply run_cons_inv in Hrun as (p & s1 & log1 & Ha & Hrun & ->).
    pose proof (wf_alloc _ _ _ _ _ _ Hwf Hsz Ha) as Hwf1.
    apply elem_of_app in Hin as [Hin | Hin]; [| by eapply IH].
    destruct p as [p |]; simpl in Hin; [| by apply elem_of_nil in Hin].
    apply list_elem_of_singleton in Hin. subst e. simpl.
    destruct (alloc_pointer_buffer _ _ _ _ _ _ Hwf Ha) as (len & Hlive & Hlen).
    exists len. split; [| done]. by eapply run_raw_stable.
Qed.

Lemma run_served_buffers_stay_live_witness :
  let s := alloc_state all_ok start 8 8 in
  let e := {| sv_base := 2; sv_start := 40; sv_size := 24 |} in
  reachable s /\ Forall valid_request example_requests /\
  run s example_requests =
    Some (run_log s example_requests, run_state s example_requests) /\
  e ∈ run_log s example_requests /\
  exists len,
    heap (run_state s example_requests) !! sv_base e = Some (Raw len) /\
    4096 <= len.
Proof.
  intros s e.
  assert (Forall valid_request example_requests) as Hv.
  { unfold example_requests, valid_request.
    repeat (apply Forall_cons; split; [split; [vm_compute; by split |] |]);
      [pow2_exp 3 | pow2_exp 3 | pow2_exp 3 | pow2_exp 0 | pow2_exp 2
      | apply Forall_nil_2]. }
  assert (run s example_requests =
            Some (run_log s example_requests, run_state s example_requests))
    as Hrun by (vm_compute; reflexivity).
  assert (e ∈ run_log s example_requests) as Hin.
  { apply (list_elem_of_lookup_2 _ 2%nat). vm_compute. reflexivity. }
  split; [apply reachable_8_8 |]. split_and!; try done.
  exact (run_served_buffers_stay_live example_requests s _ _ reachable_8_8 Hv Hrun e Hin).
Defined.

(** X4. A block keeps its buffer and its capacity through any run of
    [_arena_alloc] calls, and a block that is not the tail when the run
    starts is not written at all: space left over in earlier blocks is never
    used again. *)
Theorem run_blocks_fixed rs :
  forall s log s' l b,
    run s rs = Some (log, s') -> heap s !! l = Some (Block b) ->
    exists b', heap s' !! l = Some (Block b') /\
      data b' = data b /\ capacity b' = capacity b /\
      (tail (arena s) ≠ Some l -> b' = b).
Proof.
  induction rs as [| rq rs IH]; intros s log s' l b Hrun Hl.
  - simpl in Hrun. injection Hrun as _ <-. by exists b.
  - apply run_cons_inv in Hrun as (p & s1 & log1 & Ha & Hrun & _).
    destruct (alloc_block_stable _ _ _ _ _ _ l b Ha Hl)
      as (b1 & Hl1 & Hd1 & Hc1 & Hsame1).
    destruct (IH s1 log1 s' l b1 Hrun Hl1) as (b' & Hl' & Hd' & Hc' & Hsame').
    exists b'. split_and!; try congruence.
    intros Hnt. rewrite <- (Hsame1 Hnt). apply Hsame'.
    destruct (alloc_tail_step _ _ _ _ _ _ Ha) as [-> | (nb & -> & Hfresh)];
      congruence.
Qed.

Lemma run_blocks_fixed_witness :
  let s := run_state start
             [ {| rq_size := 8; rq_align := 8; rq_oracle := all_ok |};
               {| rq_size := 5000; rq_align := 8; rq_oracle := all_ok |} ] in
  let b := {| data := 2; capacity := 4096; offset := 8; next := Some 3%positive |} in
  run s example_requests =
    Some (run_log s example_requests, run_state s example_requests) /\
  heap s !! 1%positive = Some (Block b) /\
  exists b', heap (run_state s example_requests) !! 1%positive = Some (Block b') /\
    data b' = data b /\ capacity b' = capacity b /\
    (tail (arena s) ≠ Some 1%positive -> b' = b).
Proof.
  intros s b.
  assert (run s example_requests =
            Some (run_log s example_requests, run_state s example_requests))
    as Hrun by (vm_compute; reflexivity).
  assert (heap s !! 1%positive = Some (Block b)) as Hl by (vm_compute; reflexivity).
  split_and!; try done.
  exact (run_blocks_fixed example_requests s _ _ 1%positive b Hrun Hl).
Defined.

(** X5. Two calls in a row that both return a pointer.  After the first, the
    tail is the block its pointer came from and the tail's offset is the end
    of that allocation.  If the second call does not grow, its pointer lies
    in the same buffer and starts at that end rounded up to its alignment; if
    it grows, its pointer is at offset 0 of a different buffer. *)
Theorem consecutive_allocations o1 o2 s n1 a1 n2 a2 p1 s1 p2 s2 :
  reachable s ->
  _arena_alloc o1 s n1 a1 = Some (Some p1, s1) ->
  _arena_alloc o2 s1 n2 a2 = Some (Some p2, s2) ->
  (exists b1, tail_block s1 = Some b1 /\ data b1 = base p1 /\
     offset b1 = SizeT.add (disp p1) n1) /\
  (takes_grow_branch s1 n2 a2 = false ->
     base p2 = base p1 /\ disp p2 = align_up (SizeT.add (disp p1) n1) a2) /\
  (takes_grow_branch s1 n2 a2 = true -> disp p2 = 0 /\ base p2 ≠ base p1).
Proof.
  intros Hr Ha1 Ha2. apply reachable_wf in Hr.
  destruct (alloc_tail_after _ _ _ _ _ _ Ha1) as (b1 & Htb & Hdat & Hoff).
  destruct (alloc_pointer_buffer _ _ _ _ _ _ Hr Ha1) as (len & Hlive & _).
  split; [by exists b1 |].
  apply alloc_cases in Ha2
    as [(Hb & prev & Hprev & _ & Hg) | (Hb & t & b & Ht & Hblk & [= ->] & _)].
  - split; [congruence |]. intros _.
    apply grow_new_tail in Hg as (Hfresh & _ & Hz & _); [| done].
    split; [done |]. congruence.
  - split; [| congruence]. intros _. simpl.
    unfold tail_block in Htb. rewrite Ht in Htb. simpl in Htb.
    rewrite Hblk in Htb. injection Htb as ->. by rewrite Hdat, Hoff.
Qed.

Lemma consecutive_allocations_witness :
  let s1 := alloc_state all_ok start 8 8 in
  let s2 := alloc_state all_ok s1 8 8 in
  let p1 := {| base := 2; disp := 0 |} in
  let p2 := {| base := 2; disp := 8 |} in
  reachable start /\
  _arena_alloc all_ok start 8 8 = Some (Some p1, s1) /\
  _arena_alloc all_ok s1 8 8 = Some (Some p2, s2) /\
  (exists b1, tail_block s1 = Some b1 /\ data b1 = base p1 /\
     offset b1 = SizeT.add (disp p1) 8) /\
  (takes_grow_branch s1 8 8 = false ->
     base p2 = base p1 /\ disp p2 = align_up (SizeT.add (disp p1) 8) 8) /\
  (takes_grow_branch s1 8 8 = true -> disp p2 = 0 /\ base p2 ≠ base p1).
Proof.
  intros s1 s2 p1 p2.
  assert (_arena_alloc all_ok start 8 8 = Some (Some p1, s1)) as H1
    by (vm_compute; reflexivity).
  assert (_arena_alloc all_ok s1 8 8 = Some (Some p2, s2)) as H2
    by (vm_compute; reflexivity).
  split; [apply reach_start |]. split; [done |]. split; [done |].
  exact (consecutive_allocations all_ok all_ok start 8 8 8 8 p1 s1 p2 s2
           reach_start H1 H2).
Defined.

(** X6. What the test of line 20 decides on a reachable region that has a
    tail block, for a [size_t] request.  When the rounded-up offset is not 0
    the call grows exactly when the request is larger than the tail's
    capacity; when the rounded-up offset is 0 it grows exactly when the
    request is at least the capacity and below [SIZE_MAX].  In particular a
    [SIZE_MAX] request at rounded-up offset 0 does not grow. *)
Theorem growth_test_characterised s n al t :
  reachable s -> SizeT.in_range n -> tail (arena s) = Some t ->
  exists b, heap s !! t = Some (Block b) /\
    (takes_grow_branch s n al = true <->
       (align_up (offset b) al = 0 /\ capacity b <= n < SizeT.max) \/
       (align_up (offset b) al ≠ 0 /\ capacity b < n)).
Proof.
  intros Hr Hn Ht.
  destruct (wf_tail_block s t (reachable_wf s Hr) Ht) as (b & Hb & _ & _ & Hcap & _).
  simpl in Hcap. exists b. split; [done |].
  unfold takes_grow_branch. rewrite Ht, Hb. apply no_room_iff; [done | lia].
Qed.

Lemma growth_test_characterised_witness :
  let s := alloc_state all_ok start 8 8 in
  reachable s /\ SizeT.in_range 4096 /\ tail (arena s) = Some 1%positive /\
  exists b, heap s !! 1%positive = Some (Block b) /\
    (takes_grow_branch s 4096 8 = true <->
       (align_up (offset b) 8 = 0 /\ capacity b <= 4096 < SizeT.max) \/
       (align_up (offset b) 8 ≠ 0 /\ capacity b < 4096)).
Proof.
  intros s.
  assert (SizeT.in_range 4096) as Hn by size_t_range.
  assert (tail (arena s) = Some 1%positive) as Ht by (vm_compute; reflexivity).
  split; [apply reachable_8_8 |]. split; [done |]. split; [done |].
  exact (growth_test_characterised s 4096 8 1%positive reachable_8_8 Hn Ht).
Defined.

(** X7. The first allocation on a reachable region without blocks (fresh,
    or after [arena_init] or [arena_deinit]), when both [malloc] calls
    succeed: the call returns a pointer at offset 0 of a new block that is
    both [head] and [tail], has capacity [max(size, 4096)], a live buffer of
    that length, offset [size] and no successor. *)
Theorem first_allocation o s n al :
  reachable s -> tail (arena s) = None -> SizeT.in_range n ->
  malloc_fails o = false ->
  exists p s' l blk,
    _arena_alloc o s n al = Some (Some p, s') /\
    head (arena s') = Some l /\ tail (arena s') = Some l /\
    heap s' !! l = Some (Block blk) /\
    base p = data blk /\ disp p = 0 /\
    capacity blk = Z.max n 4096 /\ offset blk = n /\ next blk = None /\
    heap s' !! data blk = Some (Raw (capacity blk)).
Proof.
  intros Hr Ht Hn Hok. destruct (reachable_wf s Hr) as [ls Hc].
  destruct (chain_empty s ls Hc Ht) as [_ Hhead].
  unfold _arena_alloc. rewrite Ht.
  destruct (grow_total o s None n) as (r & s' & Hg). rewrite Hg.
  destruct r as [p |]; [| apply grow_failure in Hg as [_ Hf]; congruence].
  apply grow_success in Hg as (nb & d & Hg); [| done]. simpl in Hg.
  destruct Hg as (_ & _ & _ & -> & Hhd & Htl & Hnew & Hbuf & _).
  rewrite Hhead in Hhd.
  unfold SizeT.add in Hnew. rewrite Z.add_0_l, wrap_small in Hnew by done.
  eexists _, s', nb, _. split_and!; try done.
  simpl. destruct (Z.gtb_spec n 4096); lia.
Qed.

Lemma first_allocation_witness :
  reachable start /\ tail (arena start) = None /\ SizeT.in_range 5000 /\
  malloc_fails all_ok = false /\
  exists p s' l blk,
    _arena_alloc all_ok start 5000 8 = Some (Some p, s') /\
    head (arena s') = Some l /\ tail (arena s') = Some l /\
    heap s' !! l = Some (Block blk) /\
    base p = data blk /\ disp p = 0 /\
    capacity blk = Z.max 5000 4096 /\ offset blk = 5000 /\ next blk = None /\
    heap s' !! data blk = Some (Raw (capacity blk)).
Proof.
  assert (SizeT.in_range 5000) as Hn by size_t_range.
  split; [apply reach_start |]. split; [reflexivity |]. split; [done |].
  split; [reflexivity |].
  exact (first_allocation all_ok start 5000 8 reach_start eq_refl Hn eq_refl).
Defined.

(** X8. Once [head] is set, no run of [_arena_alloc] calls changes it: the
    first block stays the head of the chain. *)
Theorem run_head_fixed rs :
  forall s log s' h,
    run s rs = Some (log, s') -> head (arena s) = Some h ->
    head (arena s') = Some h.
Proof.
  induction rs as [| rq rs IH]; intros s log s' h Hrun Hh.
  - simpl in Hrun. by injection Hrun as _ <-.
  - apply run_cons_inv in Hrun as (p & s1 & log1 & Ha & Hrun & _).
    eapply IH; [done |]. by eapply alloc_head_stable.
Qed.

Lemma run_head_fixed_witness :
  let s := run_state start
             [ {| rq_size := 8; rq_align := 8; rq_oracle := all_ok |};
               {| rq_size := 5000; rq_align := 8; rq_oracle := all_ok |} ] in
  run s example_requests =
    Some (run_log s example_requests, run_state s example_requests) /\
  head (arena s) = Some 1%positive /\
  head (arena (run_state s example_requests)) = Some 1%positive.
Proof.
  intros s.
  assert (run s example_requests =
            Some (run_log s example_requests, run_state s example_requests))
    as Hrun by (vm_compute; reflexivity).
  assert (head (arena s) = Some 1%positive) as Hh by (vm_compute; reflexivity).
  split; [done |]. split; [done |].
  exact (run_head_fixed example_requests s _ _ 1%positive Hrun Hh).
Defined.

(** X9. What one call costs in chunks obtained from the system allocator: a
    call that returns [NULL] or is served from the tail leaves the number of
    live chunks unchanged, and a call that grows and returns a pointer adds
    exactly two, the block record and its buffer. *)
Theorem alloc_chunk_cost o s n al r s' :
  _arena_alloc o s n al = Some (r, s') ->
  (r = None -> size (heap s') = size (heap s)) /\
  (is_Some r -> takes_grow_branch s n al = false ->
     size (heap s') = size (heap s)) /\
  (is_Some r -> takes_grow_branch s n al = true ->
     size (heap s') = S (S (size (heap s)))).
Proof.
  intros Ha. pose proof (alloc_heap_size _ _ _ _ _ _ Ha) as Hsz.
  split_and!.
  - intros ->. lia.
  - intros [p ->] Hb. rewrite Hb in Hsz. lia.
  - intros [p ->] Hb. rewrite Hb in Hsz. lia.
Qed.

Lemma alloc_chunk_cost_witness :
  let s := alloc_state all_ok start 8 8 in
  let s' := alloc_state all_ok s 5000 8 in
  _arena_alloc all_ok s 5000 8 = Some (Some {| base := 4; disp := 0 |}, s') /\
  (Some {| base := 4; disp := 0 |} = None -> size (heap s') = size (heap s)) /\
  (is_Some (Some {| base := 4; disp := 0 |}) ->
     takes_grow_branch s 5000 8 = false -> size (heap s') = size (heap s)) /\
  (is_Some (Some {| base := 4; disp := 0 |}) ->
     takes_grow_branch s 5000 8 = true ->
     size (heap s') = S (S (size (heap s)))).
Proof.
  intros s s'.
  assert (_arena_alloc all_ok s 5000 8 = Some (Some {| base := 4; disp := 0 |}, s'))
    as Ha by (vm_compute; reflexivity).
  split; [done |].
  exact (alloc_chunk_cost all_ok s 5000 8 _ s' Ha).
Defined.

(** X10. [arena_alloc_array] when [sizeof(type) * count] fits in [size_t]
    and the alignment is a power of two: a returned pointer starts at a
    multiple of the alignment within its buffer, it belongs to the tail
    block, and the tail's offset ends up [sizeof(type) * count] bytes (in
    [size_t] arithmetic) past the pointer. *)
Theorem arena_alloc_array_exact o s sz al count p s' :
  0 <= sz -> 0 <= count -> sz * count < SizeT.modulus -> SizeT.is_pow2 al ->
  arena_alloc_array o s sz al count = Some (Some p, s') ->
  disp p mod al = 0 /\
  exists b, tail_block s' = Some b /\ data b = base p /\
    offset b = SizeT.add (disp p) (sz * count).
Proof.
  intros Hsz Hcount Hfit (k & Hk & ->). unfold arena_alloc_array, SizeT.mul.
  rewrite wrap_small by (unfold SizeT.in_range; nia). intros Ha.
  split; [| by eapply alloc_tail_after].
  apply alloc_cases in Ha
    as [(_ & prev & Hprev & _ & Hg) | (_ & t & b & _ & _ & [= ->] & _)].
  - apply grow_new_tail in Hg as (_ & _ & -> & _); [| done].
    apply Z.mod_0_l. pose proof (pow2_bounds k Hk). lia.
  - simpl. by apply align_up_multiple.
Qed.

Lemma arena_alloc_array_exact_witness :
  let s := alloc_state all_ok start 3 1 in
  let p := {| base := 2; disp := 4 |} in
  let s' := alloc_state all_ok s 12 4 in
  0 <= 4 /\ 0 <= 3 /\ 4 * 3 < SizeT.modulus /\ SizeT.is_pow2 4 /\
  arena_alloc_array all_ok s 4 4 3 = Some (Some p, s') /\
  disp p mod 4 = 0 /\
  exists b, tail_block s' = Some b /\ data b = base p /\
    offset b = SizeT.add (disp p) (4 * 3).
Proof.
  intros s p s'.
  assert (4 * 3 < SizeT.modulus) as Hfit by (rewrite modulus_eq; lia).
  assert (SizeT.is_pow2 4) as Hp by pow2_exp 2.
  assert (arena_alloc_array all_ok s 4 4 3 = Some (Some p, s')) as Ha
    by (vm_compute; reflexivity).
  split; [lia |]. split; [lia |]. split; [done |]. split; [done |].
  split; [done |].
  exact (arena_alloc_array_exact all_ok s 4 4 3 p s'
           ltac:(lia) ltac:(lia) Hfit Hp Ha).
Defined.

(** X11. A call that grows a region which already has a tail block [b], and
    returns a pointer: the new block record sits at an address that was not
    live, becomes the tail and has no successor; [b] is changed only in its
    [next], which now points to the new block; [head] is unchanged; the
    pointer is at offset 0 of the new block's buffer, whose length is the
    new capacity [max(size, 4096)], so the [size] bytes lie inside it. *)
Theorem growth_appends_block o s n al p s' t b :
  reachable s -> SizeT.in_range n ->
  tail (arena s) = Some t -> heap s !! t = Some (Block b) ->
  takes_grow_branch s n al = true ->
  _arena_alloc o s n al = Some (Some p, s') ->
  exists nb blk,
    heap s !! nb = None /\ heap s !! data blk = None /\
    tail (arena s') = Some nb /\ head (arena s') = head (arena s) /\
    heap s' !! t = Some (Block (set_next b (Some nb))) /\
    heap s' !! nb = Some (Block blk) /\ next blk = None /\
    base p = data blk /\ disp p = 0 /\
    capacity blk = Z.max n 4096 /\ offset blk = n /\
    heap s' !! data blk = Some (Raw (capacity blk)) /\
    disp p + n <= capacity blk.
Proof.
  intros Hr Hn Ht Hb Hgrow Ha. destruct (reachable_wf s Hr) as [ls Hc].
  apply alloc_cases in Ha as [(_ & prev & Hprev & Hnone & Hg) | (Hb' & _)];
    [| congruence].
  destruct prev as [[t' tb] |]; [| specialize (Hnone eq_refl); congruence].
  destruct (Hprev t' tb eq_refl) as [Ht' Htb].
  assert (t' = t) as -> by congruence. assert (tb = b) as -> by congruence.
  apply grow_success in Hg as (nb & d & Hg);
    [| intros ? ? [= <- <-]; by eexists].
  simpl in Hg.
  destruct Hg as (Hnb & Hd & _ & -> & Hhd & Htl & Hnew & Hbuf & Hold & _).
  unfold SizeT.add in Hnew. rewrite Z.add_0_l, wrap_small in Hnew by done.
  assert (head (arena s') = head (arena s)) as Hsame.
  { destruct (chain_tail_split s ls t Hc Ht) as (ls0 & b0 & -> & _).
    destruct Hc as (Hl & _).
    destruct ls0; simpl in Hl; destruct Hl as [Hh _]; by rewrite Hhd, Hh. }
  unfold SizeT.in_range in Hn.
  pose proof (Hold t b eq_refl) as Hold'.
  assert ((if n >? 4096 then n else 4096) = Z.max n 4096) as Hcap
    by (destruct (Z.gtb_spec n 4096); lia).
  rewrite Hcap in Hnew, Hbuf.
  exists nb, {| data := d; capacity := Z.max n 4096; offset := n; next := None |}.
  simpl. split_and!; try done. lia.
Qed.

Lemma growth_appends_block_witness :
  let s := alloc_state all_ok start 8 8 in
  let b := {| data := 2; capacity := 4096; offset := 8; next := None |} in
  let p := {| base := 4; disp := 0 |} in
  let s' := alloc_state all_ok s 5000 8 in
  reachable s /\ SizeT.in_range 5000 /\
  tail (arena s) = Some 1%positive /\ heap s !! 1%positive = Some (Block b) /\
  takes_grow_branch s 5000 8 = true /\
  _arena_alloc all_ok s 5000 8 = Some (Some p, s') /\
  exists nb blk,
    heap s !! nb = None /\ heap s !! data blk = None /\
    tail (arena s') = Some nb /\ head (arena s') = head (arena s) /\
    heap s' !! 1%positive = Some (Block (set_next b (Some nb))) /\
    heap s' !! nb = Some (Block blk) /\ next blk = None /\
    base p = data blk /\ disp p = 0 /\
    capacity blk = Z.max 5000 4096 /\ offset blk = 5000 /\
    heap s' !! data blk = Some (Raw (capacity blk)) /\
    disp p + 5000 <= capacity blk.
Proof.
  intros s b p s'.
  assert (SizeT.in_range 5000) as Hn by size_t_range.
  assert (tail (arena s) = Some 1%positive) as Ht by (vm_compute; reflexivity).
  assert (heap s !! 1%positive = Some (Block b)) as Hb by (vm_compute; reflexivity).
  assert (takes_grow_branch s 5000 8 = true) as Hg by (vm_compute; reflexivity).
  assert (_arena_alloc all_ok s 5000 8 = Some (Some p, s')) as Ha
    by (vm_compute; reflexivity).
  split; [apply reachable_8_8 |]. split; [done |]. split; [done |].
  split; [done |]. split; [done |]. split; [done |].
  exact (growth_appends_block all_ok s 5000 8 p s' 1%positive b
           reachable_8_8 Hn Ht Hb Hg Ha).
Defined.

(** X12. On every reachable state [arena_deinit] is defined; it changes no
    chunk that stays live (the heap afterwards is a sub-map of the heap
    before), and neither the head block, nor the tail block, nor the buffer
    of either is live afterwards. *)
Theorem deinit_frees_only_chain s :
  reachable s ->
  exists s', arena_deinit s = Some s' /\ heap s' ⊆ heap s /\
    (forall l b, (head (arena s) = Some l \/ tail (arena s) = Some l) ->
       heap s !! l = Some (Block b) ->
       heap s' !! l = None /\ heap s' !! data b = None).
Proof.
  intros Hr. destruct (reachable_wf s Hr) as [ls Hc].
  destruct (deinit_chain_exact s ls Hc) as (s' & Hd & _ & Hsub & Hgone).
  exists s'. split_and!; try done. intros l b Hend Hb.
  assert ((l, b) ∈ ls) as Hin.
  { destruct Hend as [Hh | Ht].
    - destruct Hc as (Hl & _ & Hok & _). destruct ls as [| [l0 b0] r];
        simpl in Hl; [congruence |]. destruct Hl as [Hl0 _].
      apply Forall_cons in Hok as [(Hb0 & _) _]. simpl in Hl0, Hb0.
      assert (l0 = l) as -> by congruence. assert (b0 = b) as -> by congruence.
      apply list_elem_of_here.
    - destruct (chain_tail_split s ls l Hc Ht) as (ls0 & b0 & -> & Hb0).
      assert (b0 = b) as -> by congruence.
      apply elem_of_app. right. apply list_elem_of_here. }
  rewrite Forall_forall in Hgone. exact (Hgone (l, b) Hin).
Qed.

Lemma deinit_frees_only_chain_witness :
  let s := alloc_state all_ok start 8 8 in
  reachable s /\
  exists s', arena_deinit s = Some s' /\ heap s' ⊆ heap s /\
    (forall l b, (head (arena s) = Some l \/ tail (arena s) = Some l) ->
       heap s !! l = Some (Block b) ->
       heap s' !! l = None /\ heap s' !! data b = None).
Proof.
  intros s. split; [apply reachable_8_8 |].
  exact (deinit_frees_only_chain s reachable_8_8).
Defined.

(** X13. The rounding expression of line 15,
    [(b->offset + align - 1) & ~(align - 1)], for a power-of-two [align] and
    an offset for which [b->offset + align - 1] does not exceed [SIZE_MAX]:
    it is the arithmetic round-up [((off + align - 1) / align) * align], the
    least multiple of [align] that is not below the offset. *)
Theorem align_up_is_round_up off k :
  0 <= k < SizeT.bits -> 0 <= off -> off + 2 ^ k - 1 < SizeT.modulus ->
  align_up off (2 ^ k) = spec_round_up off (2 ^ k) /\
  align_up off (2 ^ k) mod 2 ^ k = 0 /\
  off <= align_up off (2 ^ k) /\
  (forall m, m mod 2 ^ k = 0 -> off <= m -> align_up off (2 ^ k) <= m).
Proof.
  intros Hk Hoff Hfit. pose proof (pow2_bounds k Hk) as Hp.
  pose proof (align_up_bounds off k Hk Hoff Hfit) as Hb.
  pose proof (align_up_multiple off k Hk) as Hm.
  split; [| split; [done |]; split; [lia |]].
  - rewrite align_up_pow2 by done. unfold spec_round_up.
    by rewrite wrap_small by (unfold SizeT.in_range; lia).
  - intros m Hmm Hle.
    apply Z.mod_divide in Hm; [| lia]. apply Z.mod_divide in Hmm; [| lia].
    destruct Hm as [q Hq]. destruct Hmm as [q' Hq'].
    set (a := 2 ^ k) in *. rewrite Hq in *. subst m.
    destruct (Z_lt_le_dec q' q) as [Hlt | Hge]; [| nia].
    assert (q' * a <= (q - 1) * a) by nia. lia.
Qed.

Lemma align_up_is_round_up_witness :
  0 <= 3 < SizeT.bits /\ 0 <= 13 /\ 13 + 2 ^ 3 - 1 < SizeT.modulus /\
  align_up 13 (2 ^ 3) = spec_round_up 13 (2 ^ 3) /\
  align_up 13 (2 ^ 3) mod 2 ^ 3 = 0 /\
  13 <= align_up 13 (2 ^ 3) /\
  (forall m, m mod 2 ^ 3 = 0 -> 13 <= m -> align_up 13 (2 ^ 3) <= m).
Proof.
  assert (0 <= 3 < SizeT.bits) as Hk by (unfold SizeT.bits; lia).
  assert (13 + 2 ^ 3 - 1 < SizeT.modulus) as Hfit by (rewrite modulus_eq; lia).
  split; [done |]. split; [lia |]. split; [done |].
  exact (align_up_is_round_up 13 3 Hk ltac:(lia) Hfit).
Defined.

(** * Returned pointers as addresses *)










